(** * A shallow embedding of the copper template engine (blizzy78/copper)

    The development follows the Go packages of the repository:
    - [Scope]     : package scope (scope.go)
    - [Values]    : the runtime values the evaluator handles (interface{} in Go)
    - [Render]    : the output flattening of package template (renderer.go)
    - [Eval]      : package evaluator (expression.go, program.go, infix/prefix)
    - [Lexer]     : package lexer (lexer.go)
    - [Parser]    : package parser (parser.go, statements.go, expression.go)

    Runes are modelled as ASCII characters; Go [int] / [int64] values as
    [Z] with 64-bit two's complement wrap-around written out. *)

From Stdlib Require Import ZArith String Ascii List Bool Lia Permutation.
From stdpp Require Import base gmap strings list.

#[local] Set Warnings "-register-all".
Local Open Scope Z_scope.

(* ===================================================================== *)
(** ** Runtime values *)
(* ===================================================================== *)

(** ranger.Status *)
Record status := mk_status {
  st_index : Z; st_first : bool; st_last : bool;
  st_even : bool; st_odd : bool; st_hasMore : bool }.

(** The dynamic values flowing through the evaluator.  [VSeq] is Go's
    [[]interface{}] (what captures, loops and ifs produce), [VSlice] any
    other slice type a host value may have (e.g. [[]SafeString]);
    [VSafe] is template.SafeString, whose reflect kind is [String];
    [VRanger] is a ranger.Ranger over the listed values; [VFunc] a host
    function, [VHost] any other host object. *)
Inductive value : Type :=
| VNil
| VInt (z : Z)
| VBool (b : bool)
| VString (s : string)
| VSafe (s : string)
| VSeq (xs : list value)
| VSlice (xs : list value)
| VMap (kvs : list (string * value))
| VRanger (xs : list value)
| VStatus (st : status)
| VFunc (id : Z)
| VHost (id : Z).

(** Errors: evaluation errors carry a position; host errors are passed
    through as returned. *)
Inductive error : Type :=
| EvalError (line col : Z) (msg : string)
| HostError (msg : string).

Inductive res (A : Type) : Type :=
| ROk (a : A)
| RErr (e : error).
Arguments ROk {A} a.
Arguments RErr {A} e.

(* ===================================================================== *)
(** ** package scope *)
(* ===================================================================== *)

Module Scope.
Section Scope.
Context {V : Type}.

(** One [Scope] value: its own map and its [locked] flag. *)
Record frame := mk_frame { values : gmap string V; locked : bool }.

(** A scope together with its parent chain: the head is the scope a
    method is called on, the tail its [Parent], grand-parent, ... *)
Definition chain := list frame.

Definition empty_frame : frame := mk_frame ∅ false.

Definition hasValueSelf (s : frame) (name : string) : bool :=
  bool_decide (is_Some (values s !! name)).

Definition put (s : frame) (name : string) (v : V) : frame :=
  mk_frame (<[name:=v]> (values s)) (locked s).

(** The [for ps != nil] walk of [Set]: the first parent storing
    [name] gets the value; [None] when no parent stores it. *)
Fixpoint set_in_parents (ps : chain) (name : string) (v : V) : option chain :=
  match ps with
  | [] => None
  | p :: ps' =>
      if hasValueSelf p name then Some (put p name v :: ps')
      else option_map (cons p) (set_in_parents ps' name v)
  end.

(** Scope.Set *)
Definition Set_ (s : chain) (name : string) (v : V) : chain :=
  match s with
  | [] => []
  | f :: ps =>
      match set_in_parents ps name v with
      | Some ps' => f :: ps'
      | None => if locked f then s else put f name v :: ps
      end
  end.

(** Scope.HasValue *)
Fixpoint HasValue (s : chain) (name : string) : bool :=
  match s with
  | [] => false
  | f :: ps => hasValueSelf f name || HasValue ps name
  end.

(** Scope.Value *)
Fixpoint Value (s : chain) (name : string) : option V :=
  match s with
  | [] => None
  | f :: ps =>
      match values f !! name with
      | Some v => Some v
      | None => Value ps name
      end
  end.

(** Scope.Lock *)
Definition Lock (s : chain) : chain :=
  match s with
  | [] => []
  | f :: ps => mk_frame (values f) true :: ps
  end.

(** Scope.ClearSelf *)
Definition ClearSelf (s : chain) : chain :=
  match s with
  | [] => []
  | f :: ps => mk_frame ∅ (locked f) :: ps
  end.

(** The number of bindings stored at each scope of the chain. *)
Definition binding_counts (s : chain) : list nat :=
  map (fun f => size (values f)) s.
End Scope.
Arguments frame : clear implicits.
Arguments chain : clear implicits.
End Scope.

(* ===================================================================== *)
(** ** package template: writing the result *)
(* ===================================================================== *)

Module Render.

Definition unsafe : string := "!UNSAFE!".

(** template.expectSafe *)
Fixpoint expectSafe (v : value) : string :=
  match v with
  | VNil => ""
  | VSafe s => s
  | VSeq xs => (fix go (xs : list value) : string :=
                  match xs with
                  | [] => ""
                  | x :: xs' => (expectSafe x ++ go xs')%string
                  end) xs
  | VString s => if String.eqb s "" then "" else unsafe
  | _ => unsafe
  end.

(** template.writeSingle: the bytes written *)
Definition writeSingle (o : value) : string := expectSafe o.

(** template.write *)
Definition write (o : value) : string :=
  match o with
  | VSeq sl => String.concat "" (map writeSingle sl)
  | _ => writeSingle o
  end.

End Render.

(* ===================================================================== *)
(** ** package ast *)
(* ===================================================================== *)

Module Ast.

(** ast.Ident *)
Record ident := mk_ident { id_line : Z; id_col : Z; id_name : string }.

(** The node types.  [HashExpression] holds the entries of the Go map
    [map[string]Expression] built by the parser (keys distinct). *)
Inductive expr : Type :=
| NilLiteral (line col : Z)
| Literal (line col : Z) (text : string)
| IntLiteral (line col : Z) (v : Z)
| BoolLiteral (line col : Z) (b : bool)
| StringLiteral (line col : Z) (s : string)
| Ident (i : ident)
| PrefixExpression (line col : Z) (op : string) (e : expr)
| InfixExpression (line col : Z) (l : expr) (op : string) (r : expr)
| IfExpression (line col : Z) (conds : list cond_block)
| FieldExpression (line col : Z) (callee index : expr)
| CallExpression (line col : Z) (callee : expr) (params : list expr)
| CaptureExpression (line col : Z) (b : block)
| ForExpression (line col : Z) (i : ident) (status : option ident)
                (range : expr) (b : block)
| HashExpression (line col : Z) (values : list (string * expr))
with stmt : Type :=
| ExpressionStatement (line col : Z) (e : expr)
| LetStatement (line col : Z) (i : ident) (e : expr)
| BreakStatement (line col : Z)
| ContinueStatement (line col : Z)
with block : Type :=
| Block (line col : Z) (stmts : list stmt)
with cond_block : Type :=
| ConditionalBlock (line col : Z) (cond : option expr) (b : block).

Record program := Program { prog_line : Z; prog_col : Z; prog_stmts : list stmt }.

(** Node.Line / Node.Col *)
Definition expr_pos (e : expr) : Z * Z :=
  match e with
  | NilLiteral l c | Literal l c _ | IntLiteral l c _ | BoolLiteral l c _
  | StringLiteral l c _ | PrefixExpression l c _ _ | InfixExpression l c _ _ _
  | IfExpression l c _ | FieldExpression l c _ _ | CallExpression l c _ _
  | CaptureExpression l c _ | ForExpression l c _ _ _ _
  | HashExpression l c _ => (l, c)
  | Ident i => (id_line i, id_col i)
  end.
Definition expr_line (e : expr) : Z := fst (expr_pos e).
Definition expr_col (e : expr) : Z := snd (expr_pos e).

Definition stmt_pos (s : stmt) : Z * Z :=
  match s with
  | ExpressionStatement l c _ | LetStatement l c _ _
  | BreakStatement l c | ContinueStatement l c => (l, c)
  end.

End Ast.
Import Ast.

(* ===================================================================== *)
(** ** package evaluator *)
(* ===================================================================== *)

Module Eval.

(** Evaluator state: the cursor scope (with its parent chain), the loop
    depth and the break/continue flags of evaluator.Evaluator; [calls]
    logs the host function calls made, and [ranges] counts the Go map
    [range] statements executed (the runtime's source of iteration
    orders). *)
Record evst := mk_evst {
  scope : Scope.chain value;
  loopLevel : Z;
  breakRequested : bool;
  continueRequested : bool;
  calls : list (Z * list value);
  ranges : nat }.

Definition set_scope (st : evst) (s : Scope.chain value) : evst :=
  mk_evst s (loopLevel st) (breakRequested st) (continueRequested st) (calls st) (ranges st).
Definition set_loopLevel (st : evst) (n : Z) : evst :=
  mk_evst (scope st) n (breakRequested st) (continueRequested st) (calls st) (ranges st).
Definition set_break (st : evst) (b : bool) : evst :=
  mk_evst (scope st) (loopLevel st) b (continueRequested st) (calls st) (ranges st).
Definition set_continue (st : evst) (b : bool) : evst :=
  mk_evst (scope st) (loopLevel st) (breakRequested st) b (calls st) (ranges st).
Definition set_calls (st : evst) (c : list (Z * list value)) : evst :=
  mk_evst (scope st) (loopLevel st) (breakRequested st) (continueRequested st) c (ranges st).
Definition set_ranges (st : evst) (n : nat) : evst :=
  mk_evst (scope st) (loopLevel st) (breakRequested st) (continueRequested st) (calls st) n.

(** What a host function call returns: its results, or a non-nil error
    as last result. *)
Inductive host_out := HostVals (rs : list value) | HostFail (msg : string).

(** The two implementations of evalInfixExpression in the sources
    (src/unnamed/part_022): the first short-circuits [&&] and [||],
    the second only [&&]. *)
Inductive infix_version := InfixAndOr | InfixAndOnly.

(** Evaluator options and the host side: the literal stringer, the
    host functions (arity and behaviour), field lookup on host objects,
    the evalInfixExpression build, and the iteration order the Go
    runtime chooses for the [n]-th map [range] over the given keys. *)
Record config := mk_config {
  literalStringer : string -> res value;
  host_arity : Z -> nat;
  host_call : Z -> list value -> host_out;
  host_field : Z -> string -> option value;
  infix_impl : infix_version;
  map_order : nat -> list string -> list string }.

(** A state and error monad: the state survives errors, as the fields
    of the Go evaluator do. *)
Definition M (A : Type) : Type := evst -> evst * res A.
Definition ret {A} (a : A) : M A := fun st => (st, ROk a).
Definition fail {A} (e : error) : M A := fun st => (st, RErr e).
Definition lift {A} (r : res A) : M A := fun st => (st, r).
Definition bind {A B} (m : M A) (k : A -> M B) : M B :=
  fun st => match m st with
            | (st', ROk a) => k a st'
            | (st', RErr e) => (st', RErr e)
            end.
Definition get : M evst := fun st => (st, ROk st).
Definition modify (f : evst -> evst) : M unit := fun st => (f st, ROk tt).

Notation "x <- m ;; k" := (bind m (fun x => k))
  (at level 100, m at next level, right associativity).

Definition evalError {A} (line col : Z) (msg : string) : M A :=
  fail (EvalError line col msg).

(** 64-bit two's complement wrap-around of Go's int64 arithmetic. *)
Definition wrap64 (z : Z) : Z := (z + 2^63) mod 2^64 - 2^63.

(** toSingleOrSliceObject *)
Definition toSingleOrSliceObject (objs : list value) : value :=
  match objs with
  | [] => VNil
  | [o] => o
  | _ => VSeq objs
  end.

(** toString, restricted to what the reflect kind [String] covers. *)
Definition string_kind (v : value) : option string :=
  match v with
  | VString s | VSafe s => Some s
  | _ => None
  end.

Definition assoc_lookup {A} (k : string) (l : list (string * A)) : option A :=
  match List.find (fun kv => String.eqb (fst kv) k) l with
  | Some (_, a) => Some a
  | None => None
  end.

(** evalMinusPrefix, evalBangPrefix, evalPrefixExpression *)
Definition evalMinusPrefix (right : value) (line col : Z) : res value :=
  match right with
  | VInt r => ROk (VInt (wrap64 (- r)))
  | _ => RErr (EvalError line col "incompatible expression type for '-' prefix expression")
  end.
Definition evalBangPrefix (right : value) (line col : Z) : res value :=
  match right with
  | VBool r => ROk (VBool (negb r))
  | _ => RErr (EvalError line col "incompatible expression type for '!' prefix expression")
  end.
Definition evalPrefix (op : string) (v : value) (line col : Z) : res value :=
  if String.eqb op "-" then evalMinusPrefix v line col
  else if String.eqb op "!" then evalBangPrefix v line col
  else RErr (EvalError line col ("unknown prefix expression operator: " ++ op)).

(** evalBoolInfixExpression *)
Definition evalBoolInfixExpression (l r : bool) (op : string) (line col : Z) : res value :=
  if String.eqb op "==" then ROk (VBool (Bool.eqb l r))
  else if String.eqb op "!=" then ROk (VBool (negb (Bool.eqb l r)))
  else if String.eqb op "||" then ROk (VBool (l || r))
  else if String.eqb op "&&" then ROk (VBool (l && r))
  else RErr (EvalError line col ("unexpected operator in bool infix expression: " ++ op)).

(** evalIntInfixExpression: Go's [/] truncates ([Z.quot]), [%] is
    [Z.rem]; results wrap. *)
Definition evalIntInfixExpression (l r : Z) (op : string) (line col : Z) : res value :=
  if String.eqb op "==" then ROk (VBool (l =? r))
  else if String.eqb op "!=" then ROk (VBool (negb (l =? r)))
  else if String.eqb op "<" then ROk (VBool (l <? r))
  else if String.eqb op "<=" then ROk (VBool (l <=? r))
  else if String.eqb op ">" then ROk (VBool (r <? l))
  else if String.eqb op ">=" then ROk (VBool (r <=? l))
  else if String.eqb op "+" then ROk (VInt (wrap64 (l + r)))
  else if String.eqb op "-" then ROk (VInt (wrap64 (l - r)))
  else if String.eqb op "*" then ROk (VInt (wrap64 (l * r)))
  else if String.eqb op "/" then
    (if r =? 0 then RErr (EvalError line col "division by zero")
     else ROk (VInt (wrap64 (Z.quot l r))))
  else if String.eqb op "%" then
    (if r =? 0 then RErr (EvalError line col "division by zero")
     else ROk (VInt (wrap64 (Z.rem l r))))
  else RErr (EvalError line col ("unexpected operator in int infix expression: " ++ op)).

(** evalStringInfixExpression *)
Definition evalStringInfixExpression (l r : string) (op : string) (line col : Z) : res value :=
  if String.eqb op "==" then ROk (VBool (String.eqb l r))
  else if String.eqb op "!=" then ROk (VBool (negb (String.eqb l r)))
  else if String.eqb op "+" then
    (if String.eqb l "" then ROk (VString r)
     else if String.eqb r "" then ROk (VString l)
     else ROk (VString (l ++ r)))
  else RErr (EvalError line col ("unexpected operator in string infix expression: " ++ op)).

(** The short-circuit tests at the top of evalInfixExpression, for the
    two builds: [Some r] when the right operand is skipped. *)
Definition shortCircuit (iv : infix_version) (op : string) (left : value) : option value :=
  match left with
  | VBool l =>
      if String.eqb op "&&" && negb l then Some (VBool false)
      else match iv with
           | InfixAndOr => if String.eqb op "||" && l then Some (VBool true) else None
           | InfixAndOnly => None
           end
  | _ => None
  end.

(** The kind switch of evalInfixExpression once both operands are known. *)
Definition evalInfixValues (op : string) (left right : value) (line col : Z) : res value :=
  match string_kind left, string_kind right with
  | Some l, Some r => evalStringInfixExpression l r op line col
  | _, _ =>
      match left, right with
      | VInt l, VInt r => evalIntInfixExpression l r op line col
      | VBool l, VBool r => evalBoolInfixExpression l r op line col
      | _, _ => RErr (EvalError line col
                 ("cannot handle expression types in '" ++ op ++ "' infix expression"))
      end
  end.

(** A fresh child scope for the computation, restored on every exit
    path: the [defer] of evalBlockCaptureAll. *)
Definition withChildScope {A} (m : M A) : M A :=
  fun st =>
    let '(st', r) := m (set_scope st (Scope.empty_frame :: scope st)) in
    (set_scope st' (tl (scope st')), r).

(** The loop scope and loop depth of evalForExpression, both restored
    by its [defer]. *)
Definition withLoopScope {A} (m : M A) : M A :=
  fun st =>
    let '(st', r) := m (set_loopLevel (set_scope st (Scope.empty_frame :: scope st))
                                      (loopLevel st + 1)) in
    (set_loopLevel (set_scope st' (tl (scope st'))) (loopLevel st' - 1), r).

Definition scopeSet (name : string) (v : value) : M unit :=
  modify (fun st => set_scope st (Scope.Set_ (scope st) name v)).

(** The [for] loop of evalStatementsCaptureAll: [os] has one slot per
    statement; after a break or continue the remaining slots stay nil. *)
Definition evalStatementsCaptureAll (f : stmt -> M value) : list stmt -> M (list value) :=
  fix go (ss : list stmt) : M (list value) :=
    match ss with
    | [] => ret []
    | s :: ss' =>
        o <- f s ;;
        st <- get ;;
        if breakRequested st then
          (if loopLevel st <=? 0 then evalError (fst (stmt_pos s)) (snd (stmt_pos s)) "break outside of loop"
           else ret (repeat VNil (length ss)))
        else if continueRequested st then
          (if loopLevel st <=? 0 then evalError (fst (stmt_pos s)) (snd (stmt_pos s)) "continue outside of loop"
           else ret (repeat VNil (length ss)))
        else (os <- go ss' ;; ret (o :: os))
    end.

(** The loop over [i.Conditionals] of evalIfExpression; [g] evaluates
    one conditional and yields [Some] when its block was taken. *)
Definition evalConditionals (g : cond_block -> M (option value)) : list cond_block -> M value :=
  fix go (cs : list cond_block) : M value :=
    match cs with
    | [] => ret VNil
    | c :: cs' => r <- g c ;; match r with Some o => ret o | None => go cs' end
    end.

Definition evalList : list (M value) -> M (list value) :=
  fix go (ms : list (M value)) : M (list value) :=
    match ms with
    | [] => ret []
    | m :: ms' => v <- m ;; vs <- go ms' ;; ret (v :: vs)
    end.

(** sliceRanger.Status for the [i]-th of [n] values. *)
Definition rangerStatus (i n : nat) : status :=
  let index := Z.of_nat i in
  let lastIndex := Z.of_nat n - 1 in
  let even := Z.rem index 2 =? 0 in
  mk_status index (index =? 0) (index =? lastIndex) even (negb even) (index <? lastIndex).

(** The [for rg.Next()] loop of evalForExpression, at the [i]-th of
    [n] values with [rest] still to come and [os] collected; [body] is
    the block in capture-all mode. *)
Fixpoint forLoop (name : string) (statusName : option string) (body : M (list value))
         (n i : nat) (rest os : list value) : M (list value) :=
  match rest with
  | [] => ret os
  | v :: rest' =>
      _ <- modify (fun st => set_scope st (Scope.ClearSelf (scope st))) ;;
      _ <- scopeSet name v ;;
      _ <- (match statusName with
            | Some sn => scopeSet sn (VStatus (rangerStatus i n))
            | None => ret tt
            end) ;;
      loopOs <- body ;;
      st <- get ;;
      if breakRequested st then
        (_ <- modify (fun st => set_break st false) ;; ret (os ++ loopOs))
      else
        (_ <- modify (fun st => set_continue st false) ;;
         forLoop name statusName body n (S i) rest' (os ++ loopOs))
  end.

Definition evalForLoop (name : string) (statusName : option string)
           (body : M (list value)) (xs : list value) : M (list value) :=
  forLoop name statusName body (length xs) 0 xs [].

(** The body of the [range] of evalHashExpression over the keys [ks]
    still to visit, with the pairs [acc] stored so far. *)
Fixpoint evalHashEntries (line col : Z) (entries : list (string * M value))
         (ks : list string) (acc : list (string * value)) : M value :=
  match ks with
  | [] => ret (VMap acc)
  | k :: ks' =>
      match assoc_lookup k acc with
      | Some _ => evalError line col ("duplicate key in hash expression: " ++ k)
      | None =>
          match assoc_lookup k entries with
          | Some m => v <- m ;; evalHashEntries line col entries ks' (acc ++ [(k, v)])
          | None => evalHashEntries line col entries ks' acc
          end
      end
  end.

Section Evaluator.
Variable cfg : config.

(** evalHashExpression: [for key, expr := range h.Values] visits the
    keys in the order the Go runtime picks for this [range]. *)
Definition evalHashExpression (line col : Z) (entries : list (string * M value)) : M value :=
  st <- get ;;
  let order := map_order cfg (ranges st) (map fst entries) in
  _ <- modify (fun st => set_ranges st (S (ranges st))) ;;
  evalHashEntries line col entries order [].

(** The field lookup of evalFieldExpression once index and callee are known. *)
Definition evalFieldValue (callee : value) (name : string) (line col : Z) : res value :=
  match callee with
  | VNil => RErr (EvalError line col ("cannot get field or function '" ++ name ++ "' from nil object"))
  | VMap kvs =>
      match assoc_lookup name kvs with
      | Some v => ROk v
      | None => RErr (EvalError line col ("key not found in map: " ++ name))
      end
  | VHost id =>
      match host_field cfg id name with
      | Some v => ROk v
      | None => RErr (EvalError line col ("field or function not found in object: " ++ name))
      end
  | _ => RErr (EvalError line col ("field or function not found in object: " ++ name))
  end.

(** The call of evalCallExpression once callee and arguments are known:
    missing parameters are resolved to nil by the default resolver;
    argument type conversion of the host signature is not modelled. *)
Definition callHost (id : Z) (args : list value) : M value :=
  _ <- modify (fun st => set_calls st (calls st ++ [(id, args)])) ;;
  match host_call cfg id args with
  | HostFail m => fail (HostError m)
  | HostVals [] => ret VNil
  | HostVals (r :: _) => ret r
  end.

Fixpoint evalExpression (e : expr) : M value :=
  match e with
  | NilLiteral _ _ => ret VNil
  | Literal _ _ t => lift (literalStringer cfg t)
  | IntLiteral _ _ v => ret (VInt v)
  | BoolLiteral _ _ b => ret (VBool b)
  | StringLiteral _ _ s => ret (VString s)
  | Ident i =>
      st <- get ;;
      match Scope.Value (scope st) (id_name i) with
      | Some o => ret o
      | None => evalError (id_line i) (id_col i) ("identifier not found in scope: " ++ id_name i)
      end
  | PrefixExpression line col op a =>
      v <- evalExpression a ;; lift (evalPrefix op v line col)
  | InfixExpression line col a op b =>
      left <- evalExpression a ;;
      match shortCircuit (infix_impl cfg) op left with
      | Some o => ret o
      | None => right <- evalExpression b ;; lift (evalInfixValues op left right line col)
      end
  | IfExpression _ _ conds => evalConditionals evalConditional conds
  | FieldExpression line col callee index =>
      iv <- evalExpression index ;;
      match string_kind iv with
      | None => evalError (expr_line index) (expr_col index)
                  "type of index expression in field expression is not string"
      | Some name => cv <- evalExpression callee ;; lift (evalFieldValue cv name line col)
      end
  | CallExpression line col callee params =>
      f <- evalExpression callee ;;
      match f with
      | VFunc id =>
          let n := host_arity cfg id in
          if Nat.ltb n (length params) then evalError line col "too many arguments for function call"
          else (args <- evalList (map evalExpression params) ;;
                callHost id (args ++ repeat VNil (n - length params)))
      | _ => evalError (expr_line callee) (expr_col callee)
               "callee expression in call expression is not a function"
      end
  | CaptureExpression _ _ b =>
      os <- evalBlockCaptureAll b ;; ret (toSingleOrSliceObject os)
  | ForExpression _ _ i status range b =>
      st <- get ;;
      let name := id_name i in
      if Scope.HasValue (scope st) name then
        evalError (id_line i) (id_col i) ("identifier in for statement already in use: " ++ name)
      else if (match status with
               | Some si => Scope.HasValue (scope st) (id_name si)
               | None => false
               end) then
        evalError (id_line i) (id_col i) "status identifier in for statement already in use"
      else
        (r <- evalExpression range ;;
         match r with
         | VRanger xs =>
             os <- withLoopScope (evalForLoop name (option_map id_name status)
                                              (evalBlockCaptureAll b) xs) ;;
             ret (toSingleOrSliceObject os)
         | _ => evalError (expr_line range) (expr_col range)
                  "range expression in for statement did not produce a ranger.Ranger"
         end)
  | HashExpression line col kvs =>
      evalHashExpression line col (map (fun kv => (fst kv, evalExpression (snd kv))) kvs)
  end

with evalStatement (s : stmt) : M value :=
  match s with
  | ExpressionStatement _ _ e => evalExpression e
  | LetStatement _ _ i e => o <- evalExpression e ;; _ <- scopeSet (id_name i) o ;; ret VNil
  | BreakStatement _ _ => _ <- modify (fun st => set_break st true) ;; ret VNil
  | ContinueStatement _ _ => _ <- modify (fun st => set_continue st true) ;; ret VNil
  end

with evalBlockCaptureAll (b : block) : M (list value) :=
  match b with
  | Block _ _ ss => withChildScope (evalStatementsCaptureAll evalStatement ss)
  end

with evalConditional (c : cond_block) : M (option value) :=
  match c with
  | ConditionalBlock _ _ oc b =>
      cond <- (match oc with
               | None => ret true
               | Some ce =>
                   v <- evalExpression ce ;;
                   match v with
                   | VBool bv => ret bv
                   | _ => evalError (expr_line ce) (expr_col ce)
                            "condition expression type in if expression is not bool"
                   end
               end) ;;
      if cond then (os <- evalBlockCaptureAll b ;; ret (Some (toSingleOrSliceObject os)))
      else ret None
  end.

(** evalProgram / evalStatements *)
Definition evalProgram (p : program) : M value :=
  os <- evalStatementsCaptureAll evalStatement (prog_stmts p) ;;
  ret (match rev os with [] => VNil | o :: _ => o end).

End Evaluator.

(** Evaluator.Eval on a fresh evaluator with scope [s]. *)
Definition initial (s : Scope.chain value) : evst := mk_evst s 0 false false [] 0.

Definition Eval (cfg : config) (p : program) (s : Scope.chain value) : evst * res value :=
  evalProgram cfg p (initial s).

End Eval.

(* ===================================================================== *)
(** ** package lexer *)
(* ===================================================================== *)

Module Lexer.

(** lexer.TokenType, named as in [tokenTypeNames] *)
Inductive token_type :=
| EOF | ILLEGAL | TRUE | FALSE | NIL | IDENT | INT | STRING
| ASSIGN | BANG | PLUS | MINUS | ASTERISK | SLASH | MOD
| EQUAL | NOT_EQUAL | LESS_THAN | GREATER_THAN | LESS_OR_EQUAL | GREATER_OR_EQUAL
| OR | AND | DOT | COMMA | COLON
| LEFT_PAREN | RIGHT_PAREN | LEFT_BRACKET | RIGHT_BRACKET | LEFT_BRACE | RIGHT_BRACE
| LET | IF | ELSE | ELSE_IF | END | FOR | BREAK | CONTINUE | IN | CAPTURE
| LITERAL | ERROR.

#[global] Instance token_type_eq_dec : EqDecision token_type.
Proof. solve_decision. Defined.
Definition token_type_eqb (a b : token_type) : bool := bool_decide (a = b).

(** lexer.Token (the [Err] field is only set on reader errors, which
    the model's in-memory reader never produces). *)
Record token := mk_token { ttype : token_type; literal : string; tline : Z; tcol : Z }.

(** The [keywords] table *)
Definition keyword (s : string) : option token_type :=
  if String.eqb s "let" then Some LET
  else if String.eqb s "if" then Some IF
  else if String.eqb s "else" then Some ELSE
  else if String.eqb s "elseif" then Some ELSE_IF
  else if String.eqb s "end" then Some END
  else if String.eqb s "for" then Some FOR
  else if String.eqb s "break" then Some BREAK
  else if String.eqb s "continue" then Some CONTINUE
  else if String.eqb s "in" then Some IN
  else if String.eqb s "true" then Some TRUE
  else if String.eqb s "false" then Some FALSE
  else if String.eqb s "nil" then Some NIL
  else if String.eqb s "capture" then Some CAPTURE
  else None.

(** The fields of lexer.Lexer; [input] is what the rune reader has not
    delivered yet. *)
Record lexer := mk_lexer {
  input : list ascii;
  optStartInCode : bool;
  line : Z; col : Z;
  currChar : ascii; nextChar : ascii;
  currEOF : bool; nextEOF : bool }.

Definition nul : ascii := Ascii.ascii_of_nat 0.
Definition nl : ascii := Ascii.ascii_of_nat 10.

(** A lexer on [r] as built by [New]: zero position, NUL runes. *)
Definition New (r : list ascii) (startInCode : bool) : lexer :=
  mk_lexer r startInCode 0 0 nul nul false false.

(** readNextChar *)
Definition readNextChar (l : lexer) : lexer :=
  if currEOF l then l
  else if nextEOF l then
    mk_lexer (input l) (optStartInCode l) (line l) (col l + 1)
             (currChar l) (nextChar l) true (nextEOF l)
  else
    let '(ln, cl) := if Ascii.eqb (currChar l) nl then (line l + 1, 1) else (line l, col l + 1) in
    match input l with
    | r :: rest => mk_lexer rest (optStartInCode l) ln cl (nextChar l) r (currEOF l) (nextEOF l)
    | [] => mk_lexer [] (optStartInCode l) ln cl (nextChar l) (nextChar l) (currEOF l) true
    end.

(** initialize *)
Definition initialize (l : lexer) : lexer :=
  let l := readNextChar (readNextChar l) in
  mk_lexer (input l) (optStartInCode l) 1 1 (currChar l) (nextChar l) (currEOF l) (nextEOF l).

Definition nextCharIs (l : lexer) (c : ascii) : bool :=
  negb (nextEOF l) && Ascii.eqb (nextChar l) c.

Definition isWhitespaceChar (c : ascii) : bool :=
  Ascii.eqb c " " || Ascii.eqb c (Ascii.ascii_of_nat 9) || Ascii.eqb c (Ascii.ascii_of_nat 13) || Ascii.eqb c nl.
Definition isIntChar (c : ascii) : bool :=
  (Nat.leb (nat_of_ascii "0") (nat_of_ascii c)) && (Nat.leb (nat_of_ascii c) (nat_of_ascii "9")).
Definition isIdentChar (c : ascii) : bool :=
  let n := nat_of_ascii c in
  (Nat.leb (nat_of_ascii "a") n && Nat.leb n (nat_of_ascii "z"))
  || (Nat.leb (nat_of_ascii "A") n && Nat.leb n (nat_of_ascii "Z"))
  || Ascii.eqb c "_" || isIntChar c.
Definition isIdentFirstChar (c : ascii) : bool := isIdentChar c && negb (isIntChar c).

Definition isAtCodeStart (l : lexer) : bool := Ascii.eqb (currChar l) "<" && nextCharIs l "%".
Definition isAtCodeEnd (l : lexer) : bool := Ascii.eqb (currChar l) "%" && nextCharIs l ">".

(** An upper bound on the iterations of a character loop: every
    readNextChar shortens the input or sets one of the EOF flags. *)
Definition loop_fuel (l : lexer) : nat := S (S (S (length (input l)))).

(** skipWhitespace *)
Fixpoint skipWhitespace_loop (fuel : nat) (l : lexer) : lexer :=
  match fuel with
  | O => l
  | S f => if negb (currEOF l) && isWhitespaceChar (currChar l)
           then skipWhitespace_loop f (readNextChar l) else l
  end.
Definition skipWhitespace (l : lexer) : lexer := skipWhitespace_loop (loop_fuel l) l.

(** The state functions ([stateFunc]) of the lexer. *)
Inductive lstate :=
| parseLiteral | parseEOF | parseCodeStart | parseCodeEnd | parseCode
| parseInt | parseIdent | parseString | parseLineComment | parseBlockComment
| parseAssignOrEqual | parseBangOrNotEqual | parseModOrCodeEnd
| parseLessThanOrLessEqual | parseGreaterThanOrGreaterEqual | parseSlashOrComment
| parseToken (t : token_type) (lit : string)
| parseIllegal.

Definition snoc (s : string) (c : ascii) : string := (s ++ String c EmptyString)%string.

(** strings.ReplaceAll for a two-rune [old]: non-overlapping matches,
    left to right. *)
Fixpoint replaceAll2 (a b : ascii) (new : string) (s : string) : string :=
  match s with
  | String c ((String d rest) as tail) =>
      if Ascii.eqb c a && Ascii.eqb d b then (new ++ replaceAll2 a b new rest)%string
      else String c (replaceAll2 a b new tail)
  | _ => s
  end.

Definition bs : ascii := "\".
Definition dq : ascii := Ascii.ascii_of_nat 34.
Definition str1 (c : ascii) : string := String c EmptyString.

(** The escape translation at the end of parseString. *)
Definition unescape (s : string) : string :=
  let s := replaceAll2 bs "r" (str1 (Ascii.ascii_of_nat 13)) s in
  let s := replaceAll2 bs "n" (str1 nl) s in
  let s := replaceAll2 bs "t" (str1 (Ascii.ascii_of_nat 9)) s in
  let s := replaceAll2 bs dq (str1 dq) s in
  let s := replaceAll2 bs "'" (str1 "'") s in
  let s := replaceAll2 bs bs (str1 bs) s in
  s.

(** The character loops of parseLiteral, parseInt, parseIdent:
    append [currChar] while [cont] holds; [true] when the loop stopped
    at [currEOF]. *)
Fixpoint accumulate (fuel : nat) (cont : lexer -> bool) (buf : string) (l : lexer)
  : bool * string * lexer :=
  match fuel with
  | O => (false, buf, l)
  | S f =>
      if currEOF l then (true, buf, l)
      else if cont l then accumulate f cont (snoc buf (currChar l)) (readNextChar l)
      else (false, buf, l)
  end.

(** The loop of parseString: [true] when it stopped at [currEOF]. *)
Fixpoint string_loop (fuel : nat) (startChar : ascii) (prevBackslash : bool)
         (buf : string) (l : lexer) : bool * string * lexer :=
  match fuel with
  | O => (false, buf, l)
  | S f =>
      if currEOF l then (true, buf, l)
      else if Ascii.eqb (currChar l) startChar && negb prevBackslash then (false, buf, l)
      else string_loop f startChar (Ascii.eqb (currChar l) bs)
                       (snoc buf (currChar l)) (readNextChar l)
  end.

(** The loops of parseLineComment and parseBlockComment. *)
Fixpoint line_comment_loop (fuel : nat) (l : lexer) : lexer * lstate :=
  match fuel with
  | O => (l, parseEOF)
  | S f =>
      if currEOF l then (l, parseEOF)
      else if Ascii.eqb (currChar l) nl then (l, parseCode)
      else if negb (optStartInCode l) && isAtCodeEnd l then (l, parseCodeEnd)
      else line_comment_loop f (readNextChar l)
  end.
Fixpoint block_comment_loop (fuel : nat) (l : lexer) : lexer * lstate :=
  match fuel with
  | O => (l, parseEOF)
  | S f =>
      if currEOF l then (l, parseEOF)
      else if Ascii.eqb (currChar l) "*" && nextCharIs l "/" then
        (readNextChar (readNextChar l), parseCode)
      else block_comment_loop f (readNextChar l)
  end.

Definition tok (t : token_type) (lit : string) (l : lexer) : token :=
  mk_token t lit (line l) (col l).

(** One state function: the lexer afterwards, the tokens it sends on
    the channel, and the next state ([None] ends the goroutine). *)
Definition step (l : lexer) (s : lstate) : lexer * list token * option lstate :=
  match s with
  | parseLiteral =>
      let '(eof, buf, l') := accumulate (loop_fuel l) (fun l => negb (isAtCodeStart l)) "" l in
      (l', [tok LITERAL buf l], Some (if eof then parseEOF else parseCodeStart))
  | parseEOF => (l, [tok EOF "" l], None)
  | parseCodeStart => (readNextChar (readNextChar l), [], Some parseCode)
  | parseCodeEnd => (readNextChar (readNextChar l), [], Some parseLiteral)
  | parseCode =>
      let l := skipWhitespace l in
      let c := currChar l in
      let next :=
        if isIntChar c then parseInt
        else if isIdentFirstChar c then parseIdent
        else if Ascii.eqb c dq || Ascii.eqb c "'" then parseString
        else if Ascii.eqb c "=" then parseAssignOrEqual
        else if Ascii.eqb c "+" then parseToken PLUS "+"
        else if Ascii.eqb c "-" then parseToken MINUS "-"
        else if Ascii.eqb c "*" then parseToken ASTERISK "*"
        else if Ascii.eqb c "/" then parseSlashOrComment
        else if Ascii.eqb c "!" then parseBangOrNotEqual
        else if Ascii.eqb c "%" then parseModOrCodeEnd
        else if Ascii.eqb c "(" then parseToken LEFT_PAREN "("
        else if Ascii.eqb c ")" then parseToken RIGHT_PAREN ")"
        else if Ascii.eqb c "[" then parseToken LEFT_BRACKET "["
        else if Ascii.eqb c "]" then parseToken RIGHT_BRACKET "]"
        else if Ascii.eqb c "{" then parseToken LEFT_BRACE "{"
        else if Ascii.eqb c "}" then parseToken RIGHT_BRACE "}"
        else if Ascii.eqb c "." then parseToken DOT "."
        else if Ascii.eqb c "," then parseToken COMMA ","
        else if Ascii.eqb c ":" then parseToken COLON ":"
        else if Ascii.eqb c "<" then parseLessThanOrLessEqual
        else if Ascii.eqb c ">" then parseGreaterThanOrGreaterEqual
        else parseIllegal in
      (l, [], Some next)
  | parseInt =>
      let '(eof, buf, l') := accumulate (loop_fuel l) (fun l => isIntChar (currChar l)) "" l in
      (l', [tok INT buf l], Some (if eof then parseEOF else parseCode))
  | parseIdent =>
      let '(eof, buf, l') := accumulate (loop_fuel l) (fun l => isIdentChar (currChar l)) "" l in
      let t := match keyword buf with Some t => t | None => IDENT end in
      (l', [tok t buf l], Some (if eof then parseEOF else parseCode))
  | parseString =>
      let startChar := currChar l in
      let l1 := readNextChar l in
      let '(eof, buf, l2) := string_loop (loop_fuel l1) startChar false "" l1 in
      if eof then (l2, [tok STRING buf l], Some parseEOF)
      else (readNextChar l2, [tok STRING (unescape buf) l], Some parseCode)
  | parseLineComment =>
      let '(l', next) := line_comment_loop (loop_fuel l) (readNextChar (readNextChar l)) in
      (l', [], Some next)
  | parseBlockComment =>
      let '(l', next) := block_comment_loop (loop_fuel l) (readNextChar (readNextChar l)) in
      (l', [], Some next)
  | parseAssignOrEqual =>
      (l, [], Some (if nextCharIs l "=" then parseToken EQUAL "==" else parseToken ASSIGN "="))
  | parseBangOrNotEqual =>
      (l, [], Some (if nextCharIs l "=" then parseToken NOT_EQUAL "!=" else parseToken BANG "!"))
  | parseModOrCodeEnd =>
      (l, [], Some (if nextCharIs l ">" then parseCodeEnd else parseToken MOD "%"))
  | parseLessThanOrLessEqual =>
      (l, [], Some (if nextCharIs l "=" then parseToken LESS_OR_EQUAL "<=" else parseToken LESS_THAN "<"))
  | parseGreaterThanOrGreaterEqual =>
      (l, [], Some (if nextCharIs l "=" then parseToken GREATER_OR_EQUAL ">=" else parseToken GREATER_THAN ">"))
  | parseSlashOrComment =>
      (l, [], Some (if nextCharIs l "/" then parseLineComment
                    else if nextCharIs l "*" then parseBlockComment
                    else parseToken SLASH "/"))
  | parseToken t lit =>
      (Nat.iter (String.length lit) readNextChar l, [tok t lit l], Some parseCode)
  | parseIllegal => (l, [tok ILLEGAL (str1 (currChar l)) l], None)
  end.

(** The goroutine of [Tokens]: [if l.currEOF { state = l.parseEOF }]
    before every state function. *)
Fixpoint run (fuel : nat) (l : lexer) (s : lstate) : list token :=
  match fuel with
  | O => []
  | S f =>
      let s := if currEOF l then parseEOF else s in
      let '(l', ts, next) := step l s in
      ts ++ match next with None => [] | Some s' => run f l' s' end
  end.

(** Lexer.Tokens: the whole sequence sent on the channel. *)
Definition Tokens (l : lexer) : list token :=
  let start := if optStartInCode l then parseCode else parseLiteral in
  run (8 * length (input l) + 16) (initialize l) start.

Definition lex (src : string) (startInCode : bool) : list token :=
  Tokens (New (list_ascii_of_string src) startInCode).

End Lexer.

(* ------------------------------------------------------------------ *)
(** * parser: a Pratt parser over the token stream                      *)
(* ------------------------------------------------------------------ *)

Module Parser.
Import Lexer.

(** parser.parseError; the message is the format string of
    [newParseErrorf] without its arguments. *)
Inductive perror := ParseError (line col : Z) (msg : string).

(** The parser's token window; [ch] is what the lexer has sent and the
    parser has not received yet. *)
Record pstate := mk_pstate { ch : list token; currToken : token; nextToken : token }.

Definition PM (A : Type) : Type := pstate -> perror + (A * pstate).
Definition pret {A} (a : A) : PM A := fun p => inr (a, p).
Definition pfail {A} (line col : Z) (msg : string) : PM A :=
  fun _ => inl (ParseError line col msg).
Definition pbind {A B} (m : PM A) (k : A -> PM B) : PM B :=
  fun p => match m p with inl e => inl e | inr (a, p') => k a p' end.
Definition curr : PM token := fun p => inr (currToken p, p).

Local Notation "x <- m ;; k" := (pbind m (fun x => k))
  (at level 100, m at next level, right associativity).

(** [startToken]: type -1, which is no token type of the lexer; only
    its being different from EOF matters. *)
Definition startToken : token := mk_token ERROR "" 0 0.

Definition is (t : token_type) (k : token) : bool := token_type_eqb (ttype k) t.

(** A receive on the channel; the lexer closes it only after EOF or
    ILLEGAL, past which the parser never receives. *)
Definition receive (ts : list token) : token * list token :=
  match ts with k :: rest => (k, rest) | [] => (mk_token EOF "" 0 0, []) end.

Definition readNextToken : PM unit := fun p =>
  if is EOF (currToken p) then inr (tt, p) else
  let p := mk_pstate (ch p) (nextToken p) (nextToken p) in
  if is EOF (currToken p) then inr (tt, p) else
  let '(k, rest) := receive (ch p) in
  let p := mk_pstate rest (currToken p) k in
  if is ILLEGAL k then inl (ParseError (tline k) (tcol k) "illegal token found: %s")
  else inr (tt, p).

Definition expectNext (t : token_type) : PM unit := fun p =>
  if is t (nextToken p) then readNextToken p
  else inl (ParseError (tline (nextToken p)) (tcol (nextToken p))
                       "expected token %s, got %s instead").

Definition precedenceLowest : Z := 1.
Definition precedencePrefix : Z := 8.

(** The [precedences] table *)
Definition precedence (t : token_type) : option Z :=
  match t with
  | OR => Some 2
  | AND => Some 3
  | EQUAL | NOT_EQUAL => Some 4
  | LESS_THAN | LESS_OR_EQUAL | GREATER_THAN | GREATER_OR_EQUAL => Some 5
  | PLUS | MINUS => Some 6
  | SLASH | ASTERISK | MOD => Some 7
  | LEFT_PAREN | DOT | LEFT_BRACKET => Some 9
  | _ => None
  end.

(** strconv.ParseInt(s, 10, 64) on the digit strings the lexer emits
    for INT tokens. *)
Fixpoint digits_value (acc : Z) (s : string) : option Z :=
  match s with
  | EmptyString => Some acc
  | String c rest =>
      let d := Z.of_nat (nat_of_ascii c) - 48 in
      if (0 <=? d) && (d <=? 9) then digits_value (acc * 10 + d) rest else None
  end.
Definition parseInt64 (s : string) : option Z :=
  match s with
  | EmptyString => None
  | _ => match digits_value 0 s with
         | Some v => if v <=? 2^63 - 1 then Some v else None
         | None => None
         end
  end.

Definition out_of_fuel {A} : PM A := pfail 0 0 "out of fuel".

(** parseIdentExpr *)
Definition parseIdentExpr : PM ident :=
  k <- curr ;; _ <- readNextToken ;; pret (mk_ident (tline k) (tcol k) (literal k)).

Definition one_of (ts : list token_type) (k : token) : bool :=
  existsb (fun t => is t k) ts.

(** The parse functions.  Each call spends one unit of [fuel]; the
    driver gives more than the nesting depth any token sequence can
    reach, so [out_of_fuel] is never the outcome of [Parse]. *)
Fixpoint parseExpression (fuel : nat) (prec : Z) : PM expr :=
  match fuel with O => out_of_fuel | S f =>
    k <- curr ;;
    if is EOF k then pfail (tline k) (tcol k) "expression expected" else
    e <- parsePrefix f ;;
    parseInfixLoop f prec e
  end

(** the [for] loop of parseExpression *)
with parseInfixLoop (fuel : nat) (prec : Z) (e : expr) : PM expr :=
  match fuel with O => out_of_fuel | S f =>
    k <- curr ;;
    if is EOF k then pret e else
    match precedence (ttype k) with
    | None => pret e
    | Some currPrec =>
        if prec >=? currPrec then pret e else
        r <- parseInfix f e currPrec ;;
        let '(e', ok) := r in
        if ok then parseInfixLoop f prec e' else pret e'
    end
  end

(** [prefixParseFuncs] *)
with parsePrefix (fuel : nat) : PM expr :=
  match fuel with O => out_of_fuel | S f =>
    k <- curr ;;
    match ttype k with
    | IDENT => i <- parseIdentExpr ;; pret (Ident i)
    | INT =>
        match parseInt64 (literal k) with
        | None => pfail (tline k) (tcol k) "error parsing int literal: %v"
        | Some v => _ <- readNextToken ;; pret (IntLiteral (tline k) (tcol k) v)
        end
    | STRING => _ <- readNextToken ;; pret (StringLiteral (tline k) (tcol k) (literal k))
    | BANG | MINUS =>
        _ <- readNextToken ;;
        e <- parseExpression f precedencePrefix ;;
        pret (PrefixExpression (tline k) (tcol k) (literal k) e)
    | TRUE | FALSE =>
        _ <- readNextToken ;; pret (BoolLiteral (tline k) (tcol k) (is TRUE k))
    | LEFT_PAREN =>
        _ <- readNextToken ;;
        e <- parseExpression f precedenceLowest ;;
        k' <- curr ;;
        if negb (is RIGHT_PAREN k') then pfail (tline k') (tcol k') "right paren expected" else
        _ <- readNextToken ;; pret e
    | IF =>
        _ <- readNextToken ;;
        r <- parseConditionals f IF (tline k) (tcol k) false [] ;;
        let '(conds, haveEnd) := r in
        k' <- curr ;;
        if negb haveEnd then pfail (tline k') (tcol k') "premature end of file" else
        pret (IfExpression (tline k) (tcol k) conds)
    | NIL =>
        _ <- readNextToken ;;
        k' <- curr ;; pret (NilLiteral (tline k') (tcol k'))
    | CAPTURE =>
        _ <- readNextToken ;;
        r <- parseBlock f [END] ;;
        pret (CaptureExpression (tline k) (tcol k) (fst r))
    | FOR =>
        _ <- readNextToken ;;
        i <- parseIdentExpr ;;
        k1 <- curr ;;
        statusIdent <- (if is COMMA k1 then
                          _ <- readNextToken ;; si <- parseIdentExpr ;; pret (Some si)
                        else pret None) ;;
        k2 <- curr ;;
        if negb (is IN k2) then pfail (tline k2) (tcol k2) "in keyword expected" else
        _ <- readNextToken ;;
        range <- parseExpression f precedenceLowest ;;
        kb <- curr ;;
        stmts <- parseStatements f [END] ;;
        k3 <- curr ;;
        if negb (is END k3) then pfail (tline k3) (tcol k3) "end of for expression not found" else
        _ <- readNextToken ;;
        pret (ForExpression (tline k) (tcol k) i statusIdent range
                (Block (tline kb) (tcol kb) stmts))
    | LEFT_BRACE =>
        _ <- readNextToken ;;
        values <- parseHashEntries f true [] ;;
        k' <- curr ;;
        if negb (is RIGHT_BRACE k') then
          pfail (tline k') (tcol k') "expected right brace to end hash expression" else
        _ <- readNextToken ;;
        pret (HashExpression (tline k) (tcol k) values)
    | LITERAL => _ <- readNextToken ;; pret (Literal (tline k) (tcol k) (literal k))
    | _ => pfail (tline k) (tcol k) "no prefix parse function found for %s"
    end
  end

(** [infixParseFuncs]: parseCallExpression, parseFieldExpression and
    parseInfixExpression *)
with parseInfix (fuel : nat) (left : expr) (currPrec : Z) : PM (expr * bool) :=
  match fuel with O => out_of_fuel | S f =>
    k <- curr ;;
    match ttype k with
    | LEFT_PAREN =>
        _ <- readNextToken ;;
        params <- parseCallParams f [] ;;
        k' <- curr ;;
        if negb (is RIGHT_PAREN k') then pfail (tline k') (tcol k') "right paren expected" else
        _ <- readNextToken ;;
        pret (CallExpression (expr_line left) (expr_col left) left params, true)
    | DOT =>
        _ <- readNextToken ;;
        k' <- curr ;;
        if negb (is IDENT k') then
          pfail (tline k') (tcol k') "expected identifier as field index" else
        _ <- readNextToken ;;
        pret (FieldExpression (expr_line left) (expr_col left) left
                (StringLiteral (tline k') (tcol k') (literal k')), true)
    | LEFT_BRACKET =>
        _ <- readNextToken ;;
        index <- parseExpression f precedenceLowest ;;
        k' <- curr ;;
        if negb (is RIGHT_BRACKET k') then pfail (tline k') (tcol k') "expected right bracket" else
        _ <- readNextToken ;;
        pret (FieldExpression (expr_line left) (expr_col left) left index, true)
    | _ =>
        _ <- readNextToken ;;
        right <- parseExpression f currPrec ;;
        pret (InfixExpression (expr_line left) (expr_col left) left (literal k) right, true)
    end
  end

(** parseStatement *)
with parseStatement (fuel : nat) : PM stmt :=
  match fuel with O => out_of_fuel | S f =>
    k <- curr ;;
    match ttype k with
    | LET =>
        _ <- expectNext IDENT ;;
        kn <- curr ;;
        _ <- expectNext ASSIGN ;;
        _ <- readNextToken ;;
        e <- parseExpression f precedenceLowest ;;
        pret (LetStatement 0 0 (mk_ident (tline k) (tcol k) (literal kn)) e)
    | BREAK => _ <- readNextToken ;; pret (BreakStatement (tline k) (tcol k))
    | CONTINUE => _ <- readNextToken ;; pret (ContinueStatement (tline k) (tcol k))
    | _ =>
        e <- parseExpression f precedenceLowest ;;
        pret (ExpressionStatement (tline k) (tcol k) e)
    end
  end

(** The statement loop shared by Parse, parseBlock and parseForExpression:
    statements up to EOF or one of [ends]. *)
with parseStatements (fuel : nat) (ends : list token_type) : PM (list stmt) :=
  match fuel with O => out_of_fuel | S f =>
    k <- curr ;;
    if is EOF k || one_of ends k then pret [] else
    s <- parseStatement f ;;
    ss <- parseStatements f ends ;;
    pret (s :: ss)
  end

(** parseBlock: the block and the token that ended it *)
with parseBlock (fuel : nat) (ends : list token_type) : PM (block * token) :=
  match fuel with O => out_of_fuel | S f =>
    k <- curr ;;
    stmts <- parseStatements f ends ;;
    endToken <- curr ;;
    if is EOF endToken then
      pfail (tline endToken) (tcol endToken) "end of block not found" else
    _ <- readNextToken ;;
    pret (Block (tline k) (tcol k) stmts, endToken)
  end

(** the loop of parseIfExpression: the conditionals and [haveEnd] *)
with parseConditionals (fuel : nat) (blockStartTokenType : token_type)
       (blockStartLine blockStartCol : Z) (haveElse : bool) (conds : list cond_block)
       : PM (list cond_block * bool) :=
  match fuel with O => out_of_fuel | S f =>
    k <- curr ;;
    if is EOF k then pret (conds, false) else
    let isElse := token_type_eqb blockStartTokenType ELSE in
    let isElseIf := token_type_eqb blockStartTokenType ELSE_IF in
    if isElse && haveElse then
      pfail blockStartLine blockStartCol "if expression can only have a single else block" else
    if isElseIf && haveElse then
      pfail blockStartLine blockStartCol "else block must be last in if expression" else
    let haveElse := haveElse || isElse in
    cond <- (if token_type_eqb blockStartTokenType IF || isElseIf then
               e <- parseExpression f precedenceLowest ;; pret (Some e)
             else pret None) ;;
    r <- parseBlock f [ELSE_IF; ELSE; END] ;;
    let '(b, endToken) := r in
    let conds := conds ++ [ConditionalBlock blockStartLine blockStartCol cond b] in
    if is END endToken then pret (conds, true) else
    parseConditionals f (ttype endToken) (tline endToken) (tcol endToken) haveElse conds
  end

(** the loop of parseCallExpression *)
with parseCallParams (fuel : nat) (params : list expr) : PM (list expr) :=
  match fuel with O => out_of_fuel | S f =>
    k <- curr ;;
    if is EOF k || is RIGHT_PAREN k then pret params else
    param <- parseExpression f precedenceLowest ;;
    let params := params ++ [param] in
    k' <- curr ;;
    if is RIGHT_PAREN k' then pret params else
    if negb (is COMMA k') then pfail (tline k') (tcol k') "comma expected" else
    _ <- readNextToken ;;
    parseCallParams f params
  end

(** the loop of parseHashExpression; [values] stands for the Go map
    [values] (its keys are distinct) *)
with parseHashEntries (fuel : nat) (first : bool) (values : list (string * expr))
       : PM (list (string * expr)) :=
  match fuel with O => out_of_fuel | S f =>
    k <- curr ;;
    if is EOF k || is RIGHT_BRACE k then pret values else
    _ <- (if first then pret tt else
            if negb (is COMMA k) then
              pfail (tline k) (tcol k) "expected comma before next hash element"
            else readNextToken) ;;
    kk <- curr ;;
    keyExpr <- parseExpression f precedenceLowest ;;
    match keyExpr with
    | StringLiteral _ _ key =>
        kc <- curr ;;
        if negb (is COLON kc) then
          pfail (tline kc) (tcol kc) "expected colon after key in hash expression" else
        _ <- readNextToken ;;
        if String.eqb key "" then
          pfail (tline kk) (tcol kk) "empty key in hash expression" else
        if existsb (fun kv => String.eqb (fst kv) key) values then
          pfail (tline kk) (tcol kk) "duplicate key in hash expression: %s" else
        value <- parseExpression f precedenceLowest ;;
        parseHashEntries f false (values ++ [(key, value)])
    | _ => pfail (tline kk) (tcol kk) "key in hash expression is not a string: %T"
    end
  end.

(** Parse: the program, or the first parse error. *)
Definition Parse (ts : list token) : perror + program :=
  let fuel := (8 * length ts + 16)%nat in
  let run :=
    _ <- readNextToken ;;
    _ <- readNextToken ;;
    k <- curr ;;
    stmts <- parseStatements fuel [] ;;
    pret (Program (tline k) (tcol k) stmts) in
  match run (mk_pstate ts startToken startToken) with
  | inl e => inl e
  | inr (prog, _) => inr prog
  end.

End Parser.

(* ------------------------------------------------------------------ *)
(** * template: the rendering pipeline                                  *)
(* ------------------------------------------------------------------ *)

Module Template.
Import Eval.

Inductive render_error := RParseError (e : Parser.perror) | REvalError (e : error).

(** capture: the statements wrapped in one capture expression, all
    positions zero. *)
Definition capture (statements : list stmt) : stmt :=
  ExpressionStatement 0 0 (CaptureExpression 0 0 (Block 0 0 statements)).

(** render: lex (literal mode), parse, wrap, evaluate. *)
Definition render (cfg : config) (src : string) (s : Scope.chain value)
  : render_error + value :=
  match Parser.Parse (Lexer.lex src false) with
  | inl e => inl (RParseError e)
  | inr prog =>
      match snd (Eval cfg (Program 0 0 [capture (prog_stmts prog)]) s) with
      | ROk o => inr o
      | RErr e => inl (REvalError e)
      end
  end.

(** Render with no extra data: the template scope is a fresh child of
    [s]; the result is the bytes written. *)
Definition Render (cfg : config) (src : string) (s : Scope.chain value)
  : render_error + string :=
  match render cfg src (Scope.empty_frame :: s) with
  | inl e => inl e
  | inr o => inr (Render.write o)
  end.

End Template.

(* ------------------------------------------------------------------ *)
(** * Running sources, and the shapes the properties talk about        *)
(* ------------------------------------------------------------------ *)

Module Run.
Import Eval.

(** Lex, parse and evaluate a source; [None] on a parse error. *)
Definition evalSource (cfg : config) (src : string) (inCode : bool) (s : Scope.chain value)
  : option (evst * res value) :=
  match Parser.Parse (Lexer.lex src inCode) with
  | inr p => Some (Eval cfg p s)
  | inl _ => None
  end.

(** The conditionals of an if expression that are passed over, one
    after the other from [st] to [st']: each has a condition, and it
    evaluates to false. *)
Inductive conds_false (cfg : config) : list cond_block -> evst -> evst -> Prop :=
| conds_false_nil st : conds_false cfg [] st st
| conds_false_cons l c ce b cs st st1 st2 :
    evalExpression cfg ce st = (st1, ROk (VBool false)) ->
    conds_false cfg cs st1 st2 ->
    conds_false cfg (ConditionalBlock l c (Some ce) b :: cs) st st2.

(** The condition of the conditional taken, from [st] to [st']: absent
    (else), or evaluating to true. *)
Definition cond_taken (cfg : config) (oc : option expr) (st st' : evst) : Prop :=
  match oc with
  | None => st' = st
  | Some ce => evalExpression cfg ce st = (st', ROk (VBool true))
  end.

(** A host environment: SafeString literals (as the Renderer sets up),
    every host function of arity one answering [hostResult], the given
    evalInfixExpression build and map iteration order. *)
Definition host_cfg (iv : infix_version) (order : nat -> list string -> list string)
           (hostResult : list value -> host_out) : config :=
  mk_config (fun t => ROk (VSafe t)) (fun _ => 1%nat) (fun _ args => hostResult args)
            (fun _ _ => None) iv order.

(** The value expression the parsed hash stores under key [k]. *)
Definition entry_expr (entries : list (string * expr)) (k : string) : expr :=
  match assoc_lookup k entries with Some e => e | None => NilLiteral 0 0 end.

(** A source text in double quotes. *)
Definition quoted (s : string) : string :=
  String Lexer.dq (s ++ String Lexer.dq EmptyString).

(** A scope with the given bindings and no parent. *)
Definition top (bs : list (string * value)) : Scope.chain value :=
  [Scope.mk_frame (list_to_map bs) false].

End Run.

(* ===================================================================== *)
(** ** package ranger *)
(* ===================================================================== *)

Module Ranger.
Import Eval.

(** The three implementations of ranger.Ranger.  Go [int] is 64 bits
    wide: [wrap64] is written where the source's [int] arithmetic can
    overflow. *)
Record intRanger := mk_intRanger { minInclusive : Z; maxExclusive : Z; current : Z }.
Record sliceRanger := mk_sliceRanger { s : list value; index : Z }.
(** [hindex] is the [index] field of hashRanger. *)
Record hashRanger := mk_hashRanger { h : list (string * value); keys : list string; hindex : Z }.

Inductive ranger :=
| IntRanger (i : intRanger)
| SliceRanger (sr : sliceRanger)
| HashRanger (hr : hashRanger).

(** What Value returns: an element, or a HashEntry. *)
Inductive item := Item (v : value) | HashEntry (Key : string) (Value : value).

(** New; [None] where it panics.  [keysOf] is the order in which the
    Go runtime's [for k := range h] of [keys] visits the map. *)
Definition New (keysOf : list (string * value) -> list string) (v : value) : option ranger :=
  match v with
  | VMap kvs => Some (HashRanger (mk_hashRanger kvs (keysOf kvs) (-1)))
  | VSeq xs | VSlice xs => Some (SliceRanger (mk_sliceRanger xs (-1)))
  | _ => None
  end.

(** NewInt; [None] where it panics. *)
Definition NewInt (minInclusive maxExclusive : Z) : option ranger :=
  if maxExclusive <=? minInclusive then None
  else Some (IntRanger (mk_intRanger minInclusive maxExclusive (wrap64 (minInclusive - 1)))).

(** NewFromTo *)
Definition NewFromTo (minInclusive maxInclusive : Z) : option ranger :=
  NewInt minInclusive (wrap64 (maxInclusive + 1)).

(** Next.  For the slice and hash rangers [index + 1] cannot overflow:
    it is at most the length of a Go slice. *)
Definition Next (r : ranger) : bool * ranger :=
  match r with
  | IntRanger i =>
      let c := wrap64 (current i + 1) in
      if c <? maxExclusive i
      then (true, IntRanger (mk_intRanger (minInclusive i) (maxExclusive i) c))
      else (false, r)
  | SliceRanger sr =>
      let i := index sr + 1 in
      if i <? Z.of_nat (length (s sr))
      then (true, SliceRanger (mk_sliceRanger (s sr) i))
      else (false, r)
  | HashRanger hr =>
      let i := hindex hr + 1 in
      if i <? Z.of_nat (length (keys hr))
      then (true, HashRanger (mk_hashRanger (h hr) (keys hr) i))
      else (false, r)
  end.

(** Value; [None] where the slice index panics. *)
Definition Value (r : ranger) : option item :=
  match r with
  | IntRanger i => Some (Item (VInt (current i)))
  | SliceRanger sr =>
      if 0 <=? index sr then option_map Item (nth_error (s sr) (Z.to_nat (index sr))) else None
  | HashRanger hr =>
      if 0 <=? hindex hr then
        match nth_error (keys hr) (Z.to_nat (hindex hr)) with
        | Some k => Some (HashEntry k (match assoc_lookup k (h hr) with Some v => v | None => VNil end))
        | None => None
        end
      else None
  end.

(** The Status methods, from the index and the last index. *)
Definition statusOf (index lastIndex : Z) : status :=
  let even := Z.rem index 2 =? 0 in
  mk_status index (index =? 0) (index =? lastIndex) even (negb even) (index <? lastIndex).

Definition Status (r : ranger) : status :=
  match r with
  | IntRanger i =>
      statusOf (wrap64 (current i - minInclusive i))
               (wrap64 (wrap64 (maxExclusive i - minInclusive i) - 1))
  | SliceRanger sr => statusOf (index sr) (Z.of_nat (length (s sr)) - 1)
  | HashRanger hr => statusOf (hindex hr) (Z.of_nat (length (keys hr)) - 1)
  end.

(** The [for rg.Next()] loop of evalForExpression as it reads the
    ranger: Value and Status after every successful Next; [None] where
    Value panics.  [fuel] bounds the iterations. *)
Fixpoint iterate (fuel : nat) (r : ranger) : option (list (item * status)) :=
  match fuel with
  | O => Some []
  | S f =>
      let '(ok, r') := Next r in
      if ok then
        match Value r' with
        | Some v => option_map (cons (v, Status r')) (iterate f r')
        | None => None
        end
      else Some []
  end.

End Ranger.

(* ===================================================================== *)
(** ** package template: the scopes a render runs in *)
(* ===================================================================== *)

Module TemplateScope.

(** newTemplateScope: [data] lists the map's pairs in the order the
    Go runtime's [range] visits them (keys distinct). *)
Definition newTemplateScope (data : list (string * value)) (parent : Scope.chain value)
  : Scope.chain value :=
  fold_left (fun s kv => match snd kv with
                         | VNil => s
                         | v => Scope.Set_ s (fst kv) v
                         end)
            data (Scope.empty_frame :: parent).

(** The scopes Renderer.Render sets up before loading the template:
    the user scope filled from [scopeData] (in range order) and locked,
    and the locked renderer scope holding the template function [tf]
    under [templateFuncName]; [None] for the error when the name is
    already in use. *)
Definition rendererScope (scopeData : list (string * value)) (templateFuncName : string)
           (tf : value) : option (Scope.chain value) :=
  let userScope := fold_left (fun s kv => Scope.Set_ s (fst kv) (snd kv))
                             scopeData [Scope.empty_frame] in
  if Scope.HasValue userScope templateFuncName then None
  else
    let userScope := Scope.Lock userScope in
    let rs := Scope.Set_ (Scope.empty_frame :: userScope) templateFuncName tf in
    Some (Scope.Lock rs).

End TemplateScope.

(* ===================================================================== *)
(** * Properties *)
(* ===================================================================== *)

Module ScopeFacts.
Import Scope.

Section Facts.
Context {V : Type}.
Implicit Types (f pk : frame V) (ps : chain V) (name : string) (v : V).

Lemma set_in_parents_unbound ps name v :
  HasValue ps name = false -> set_in_parents ps name v = None.
Proof.
  induction ps as [|p ps IH]; simpl; [reflexivity|].
  intros H. apply orb_false_iff in H as [H1 H2].
  rewrite H1, IH by exact H2. reflexivity.
Qed.

Lemma set_in_parents_nearest ps name v k pk :
  ps !! k = Some pk -> hasValueSelf pk name = true ->
  (forall j pj, (j < k)%nat -> ps !! j = Some pj -> hasValueSelf pj name = false) ->
  set_in_parents ps name v = Some (<[k := put pk name v]> ps).
Proof.
  revert k. induction ps as [|p ps IH]; intros k Hk Hpk Hbefore; [discriminate|].
  destruct k as [|k]; simpl in Hk.
  - injection Hk as ->. simpl. rewrite Hpk. reflexivity.
  - simpl. rewrite (Hbefore 0%nat p) by (reflexivity || lia).
    rewrite (IH k Hk Hpk); [reflexivity|].
    intros j pj Hj Hpj. apply (Hbefore (S j)); [lia | exact Hpj].
Qed.

Lemma size_put_bound pk name v :
  hasValueSelf pk name = true -> size (values (put pk name v)) = size (values pk).
Proof.
  unfold hasValueSelf, put. simpl. intros H.
  apply map_size_insert_Some. exact (bool_decide_eq_true_1 _ H).
Qed.

Lemma binding_counts_insert ps k pk x :
  ps !! k = Some pk -> size (values x) = size (values pk) ->
  binding_counts (<[k := x]> ps) = binding_counts ps.
Proof.
  revert k. induction ps as [|p ps IH]; intros [|k] Hk Hs; try discriminate; simpl in *.
  - injection Hk as ->. unfold binding_counts. simpl. rewrite Hs. reflexivity.
  - unfold binding_counts in *. simpl. f_equal. apply IH; assumption.
Qed.

Lemma drop_insert_at ps k pk x :
  ps !! k = Some pk -> drop k (<[k := x]> ps) = x :: drop (S k) ps.
Proof.
  revert k. induction ps as [|p ps IH]; intros [|k] Hk; try discriminate; simpl in *.
  - reflexivity.
  - apply IH. exact Hk.
Qed.

Lemma Value_put_self f ps name v : Value (put f name v :: ps) name = Some v.
Proof. unfold put. simpl. rewrite lookup_insert_eq. reflexivity. Qed.

(** C2: Set on a scope [f] with parents [ps].  If the nearest parent
    binding [name] is the [k]-th one, Set overwrites it there: the chain
    otherwise unchanged, the number of bindings of every scope unchanged,
    and that ancestor's Value(name) is [v].  If no parent binds [name],
    Set stores in [f] itself unless [f] is locked, when it changes
    nothing. *)
Theorem Set_nearest_ancestor_or_self f ps name v :
  (forall k pk, ps !! k = Some pk -> hasValueSelf pk name = true ->
     (forall j pj, (j < k)%nat -> ps !! j = Some pj -> hasValueSelf pj name = false) ->
     Set_ (f :: ps) name v = f :: <[k := put pk name v]> ps /\
     binding_counts (Set_ (f :: ps) name v) = binding_counts (f :: ps) /\
     Value (drop (S k) (Set_ (f :: ps) name v)) name = Some v) /\
  (HasValue ps name = false ->
     Set_ (f :: ps) name v = if locked f then f :: ps else put f name v :: ps).
Proof.
  split.
  - intros k pk Hk Hpk Hbefore.
    assert (Hset : Set_ (f :: ps) name v = f :: <[k := put pk name v]> ps).
    { simpl. rewrite (set_in_parents_nearest ps name v k pk Hk Hpk Hbefore). reflexivity. }
    rewrite Hset. split; [reflexivity|]. split.
    + unfold binding_counts. simpl. f_equal.
      apply (binding_counts_insert ps k pk); [exact Hk | apply size_put_bound; exact Hpk].
    + simpl. rewrite (drop_insert_at ps k pk _ Hk). apply Value_put_self.
  - intros H. simpl. rewrite (set_in_parents_unbound ps name v H). reflexivity.
Qed.

(** C10: Set consults no lock but that of the scope it is called on.
    The nearest parent binding [name] is overwritten whatever its lock;
    when no parent binds [name] and [f] is locked, Set on [f] changes
    nothing, whether or not [f] already binds [name]: Lock stops both
    new bindings and overwrites of [f]'s own bindings by Set on [f]. *)
Theorem Set_consults_own_lock_only f ps name v :
  (forall k pk, ps !! k = Some pk -> hasValueSelf pk name = true ->
     (forall j pj, (j < k)%nat -> ps !! j = Some pj -> hasValueSelf pj name = false) ->
     Set_ (f :: ps) name v = f :: <[k := put pk name v]> ps /\
     locked (put pk name v) = locked pk) /\
  (locked f = true -> HasValue ps name = false -> Set_ (f :: ps) name v = f :: ps) /\
  (HasValue ps name = false -> Set_ (Lock (f :: ps)) name v = Lock (f :: ps)).
Proof.
  split; [|split].
  - intros k pk Hk Hpk Hbefore. split; [|reflexivity].
    simpl. rewrite (set_in_parents_nearest ps name v k pk Hk Hpk Hbefore). reflexivity.
  - intros Hl H. simpl. rewrite (set_in_parents_unbound ps name v H), Hl. reflexivity.
  - intros H. simpl. rewrite (set_in_parents_unbound ps name v H). reflexivity.
Qed.

End Facts.

(** Witness of C2 at a chain whose parent binds x. *)
Lemma Set_nearest_ancestor_or_self_witness :
  let pk := mk_frame (<["x" := 1%Z]> ∅) true in
  let f := mk_frame (∅ : gmap string Z) false in
  ([pk] !! 0%nat = Some pk /\ hasValueSelf pk "x" = true) /\
  Set_ (f :: [pk]) "x" 7%Z = f :: <[0%nat := put pk "x" 7%Z]> [pk] /\
  Set_ (f :: []) "x" 7%Z = put f "x" 7%Z :: [].
Proof.
  intros pk f. split; [split; reflexivity|]. split.
  - refine (proj1 (proj1 (Set_nearest_ancestor_or_self f [pk] "x" 7%Z) 0%nat pk
                           eq_refl eq_refl _)).
    intros j pj Hj. lia.
  - exact (proj2 (Set_nearest_ancestor_or_self f [] "x" 7%Z) eq_refl).
Defined.

(** Witness of C10 at a locked parent and a locked scope of its own. *)
Lemma Set_consults_own_lock_only_witness :
  let pk := mk_frame (<["x" := 1%Z]> ∅) true in
  let f := mk_frame (<["x" := 2%Z]> ∅) true in
  Set_ (f :: [pk]) "x" 7%Z = f :: <[0%nat := put pk "x" 7%Z]> [pk] /\
  Set_ (f :: []) "x" 7%Z = f :: [].
Proof.
  intros pk f. split.
  - refine (proj1 (proj1 (Set_consults_own_lock_only f [pk] "x" 7%Z) 0%nat pk
                           eq_refl eq_refl _)).
    intros j pj Hj. lia.
  - exact (proj1 (proj2 (Set_consults_own_lock_only f [] "x" 7%Z)) eq_refl eq_refl).
Defined.

(** Counterexample to C10 as stated: a locked scope with no parent that
    already binds x; Set(x, 2) on it leaves x at 1, so Lock stops an
    overwrite too, not only the creation of a new binding. *)
Lemma Lock_blocks_overwrite_of_own_binding :
  let s := Lock [mk_frame (<["x" := 1%Z]> ∅) false] in
  HasValue s "x" = true /\ Set_ s "x" 2%Z = s /\ Value (Set_ s "x" 2%Z) "x" = Some 1%Z.
Proof. vm_compute. split; [reflexivity|split; reflexivity]. Qed.

End ScopeFacts.

Module RenderFacts.
Import Eval Run.

Lemma append_empty_r (s : string) : (s ++ "")%string = s.
Proof. induction s as [|c s IH]; [reflexivity | exact (f_equal (String c) IH)]. Qed.

Lemma concat_empty_cons (x : string) (l : list string) :
  String.concat "" (x :: l) = (x ++ String.concat "" l)%string.
Proof. destruct l; simpl; [symmetry; apply append_empty_r | reflexivity]. Qed.

Lemma write_expectSafe (o : value) : Render.write o = Render.expectSafe o.
Proof.
  destruct o as [| | | | |xs| | | | | |]; try reflexivity.
  simpl. induction xs as [|x xs IH]; [reflexivity|].
  rewrite map_cons, concat_empty_cons, IH. reflexivity.
Qed.

(** C1 (amended): what [write] puts out for each value: nothing for nil,
    the bytes of a SafeString, each element recursively for a
    [[]interface{}] sequence (the value kind the evaluator builds),
    nothing for the empty string, and !UNSAFE! for a non-empty plain
    string and any other value, host slices of other element types
    (such as [[]SafeString]) included. *)
Theorem write_flattening (o : value) :
  Render.write o =
    match o with
    | VNil => ""
    | VSafe s => s
    | VSeq xs => String.concat "" (map Render.write xs)
    | VString s => if String.eqb s "" then "" else "!UNSAFE!"
    | _ => "!UNSAFE!"
    end.
Proof.
  destruct o as [| | | | |xs| | | | | |]; try reflexivity.
  simpl. f_equal. apply map_ext. intros x. symmetry. apply write_expectSafe.
Qed.

(** Counterexample to C1 as stated: a host function returning a
    [[]SafeString] with element "a": the value the template produces is
    a sequence, and the renderer writes !UNSAFE!, not "a". *)
Lemma write_host_slice_unsafe :
  let cfg := host_cfg InfixAndOr (fun _ ks => ks) (fun _ => HostVals [VSlice [VSafe "a"]]) in
  Template.Render cfg "<% f() %>" (top [("f", VFunc 0)]) = inr "!UNSAFE!".
Proof. vm_compute. reflexivity. Qed.

(** C9: the empty input.  The lexer, in either mode, sends only EOF (at
    line 1, column 1); the parser returns a program without statements;
    the evaluator yields nil for it; the renderer writes zero bytes. *)
Theorem empty_input (cfg : config) (s : Scope.chain value) (inCode : bool) :
  Lexer.lex "" inCode = [Lexer.mk_token Lexer.EOF "" 1 1] /\
  Parser.Parse (Lexer.lex "" inCode) = inr (Program 1 1 []) /\
  snd (Eval cfg (Program 1 1 []) s) = ROk VNil /\
  Template.Render cfg "" s = inr "".
Proof.
  assert (Hlex : Lexer.lex "" inCode = [Lexer.mk_token Lexer.EOF "" 1 1])
    by (destruct inCode; reflexivity).
  split; [exact Hlex|]. split; [rewrite Hlex; reflexivity|]. split; [reflexivity|].
  reflexivity.
Qed.

End RenderFacts.

Module InfixFacts.
Import Eval Run.

(** [true || (1 / 0)] as the parser would build it from the text
    [true || 1 / 0]: the lexers of the sources have no rule for [|],
    so the tree is given directly to the evaluator. *)
Definition or_div_zero : expr :=
  InfixExpression 1 1 (BoolLiteral 1 1 true) "||"
    (InfixExpression 1 9 (IntLiteral 1 9 1) "/" (IntLiteral 1 13 0)).

(** The first evalInfixExpression build skips the right operand of
    [&&] after false and of [||] after true. *)
Lemma and_or_build_short_circuits cfg line col a b op l st st1 :
  infix_impl cfg = InfixAndOr ->
  evalExpression cfg a st = (st1, ROk (VBool l)) ->
  (op = "&&" /\ l = false \/ op = "||" /\ l = true) ->
  evalExpression cfg (InfixExpression line col a op b) st = (st1, ROk (VBool l)).
Proof.
  intros Hiv Ha Hop. simpl. unfold bind at 1. rewrite Ha.
  unfold shortCircuit. rewrite Hiv.
  destruct Hop as [[-> ->] | [-> ->]]; reflexivity.
Qed.

(** C4 (failing input): [true || (1 / 0)].  With the first build the
    result is true and the division is never evaluated; with the second
    build the right operand is evaluated and its division-by-zero error
    is the result. *)
Theorem or_short_circuit_depends_on_build order host st :
  evalExpression (host_cfg InfixAndOr order host) or_div_zero st = (st, ROk (VBool true)) /\
  evalExpression (host_cfg InfixAndOnly order host) or_div_zero st
    = (st, RErr (EvalError 1 9 "division by zero")).
Proof. split; reflexivity. Qed.

(** The infix node parseInfixExpression builds sits at the position of
    its left operand. *)
Lemma parseInfix_at_left fuel left prec p e ok p' :
  Lexer.ttype (Parser.currToken p) <> Lexer.LEFT_PAREN ->
  Lexer.ttype (Parser.currToken p) <> Lexer.DOT ->
  Lexer.ttype (Parser.currToken p) <> Lexer.LEFT_BRACKET ->
  Parser.parseInfix (S fuel) left prec p = inr ((e, ok), p') ->
  exists right, e = InfixExpression (expr_line left) (expr_col left) left
                                    (Lexer.literal (Parser.currToken p)) right.
Proof.
  intros H1 H2 H3. simpl. unfold Parser.pbind, Parser.curr.
  destruct (Lexer.ttype (Parser.currToken p)) eqn:Ht; try congruence;
    destruct (Parser.readNextToken p) as [err|[[] p1]]; try discriminate;
    destruct (Parser.parseExpression fuel prec p1) as [err|[r p2]]; try discriminate;
    unfold Parser.pret; intros H; injection H as <- _ _; exists r; reflexivity.
Qed.

(** C6 (amended): an integer [/] or [%] whose right operand is 0 fails
    with the evaluation error "division by zero" and no value, reported
    at the infix node's position; the parser puts that position at the
    start of the left operand, not at the operator. *)
Theorem division_by_zero_error_position cfg line col a op b st st1 st2 x :
  (op = "/" \/ op = "%") ->
  evalExpression cfg a st = (st1, ROk (VInt x)) ->
  evalExpression cfg b st1 = (st2, ROk (VInt 0)) ->
  evalExpression cfg (InfixExpression line col a op b) st
    = (st2, RErr (EvalError line col "division by zero")) /\
  (forall fuel left prec p e ok p',
     Lexer.ttype (Parser.currToken p) = Lexer.SLASH \/ Lexer.ttype (Parser.currToken p) = Lexer.MOD ->
     Parser.parseInfix (S fuel) left prec p = inr ((e, ok), p') ->
     exists right, e = InfixExpression (expr_line left) (expr_col left) left
                                       (Lexer.literal (Parser.currToken p)) right).
Proof.
  intros Hop Ha Hb. split.
  - simpl. unfold bind at 1. rewrite Ha. simpl. unfold bind. rewrite Hb. simpl.
    destruct Hop as [-> | ->]; reflexivity.
  - intros fuel left prec p e ok p' Ht.
    apply parseInfix_at_left; destruct Ht as [-> | ->]; discriminate.
Qed.

(** Witness of C6: [7 % 0]. *)
Lemma division_by_zero_error_position_witness :
  let cfg := host_cfg InfixAndOr (fun _ ks => ks) (fun _ => HostVals []) in
  let st := initial [] in
  evalExpression cfg (InfixExpression 2 5 (IntLiteral 2 5 7) "%" (IntLiteral 2 9 0)) st
    = (st, RErr (EvalError 2 5 "division by zero")).
Proof.
  intros cfg st.
  exact (proj1 (division_by_zero_error_position cfg 2 5 (IntLiteral 2 5 7) "%" (IntLiteral 2 9 0)
                  st st st 7 (or_intror eq_refl) eq_refl eq_refl)).
Defined.

(** Counterexample to C6 as stated: in [1 / 0] the operator is at line 1,
    column 3, and the error is reported at column 1, where the left
    operand starts. *)
Lemma division_error_not_at_operator :
  let cfg := host_cfg InfixAndOr (fun _ ks => ks) (fun _ => HostVals []) in
  nth_error (Lexer.lex "1 / 0" true) 1 = Some (Lexer.mk_token Lexer.SLASH "/" 1 3) /\
  option_map snd (evalSource cfg "1 / 0" true []) = Some (RErr (EvalError 1 1 "division by zero")).
Proof. vm_compute. split; reflexivity. Qed.

End InfixFacts.

Module LexerFacts.
Import Lexer.

(** C7 (failing input): in code mode the string literal whose body is
    backslash, backslash, n yields a backslash and a newline, not a
    backslash and the letter n: the escapes are replaced one kind after
    the other, [\n] before [\\].  And the literal whose body is two
    backslashes does not end at its closing quote: the second backslash
    counts as escaping it, and the token runs to the end of input. *)
Theorem string_escapes_replaced_in_sequence :
  lex (String dq (String bs (String bs (String "n" (String dq EmptyString))))) true
    = [mk_token STRING (String bs (String nl EmptyString)) 1 1; mk_token EOF "" 1 6] /\
  lex (String dq (String bs (String bs (String dq EmptyString)))) true
    = [mk_token STRING (String bs (String bs (String dq EmptyString))) 1 1; mk_token EOF "" 1 5].
Proof. split; reflexivity. Qed.

End LexerFacts.

Module IfFacts.
Import Eval Run.

Lemma evalIf_conditionals cfg l c conds :
  evalExpression cfg (IfExpression l c conds) = evalConditionals (evalConditional cfg) conds.
Proof. reflexivity. Qed.

Lemma conditionals_skip cfg pre rest st st1 :
  conds_false cfg pre st st1 ->
  evalConditionals (evalConditional cfg) (pre ++ rest) st
    = evalConditionals (evalConditional cfg) rest st1.
Proof.
  induction 1 as [st | l c ce b cs st st1 st2 Hce Hcs IH]; [reflexivity|].
  simpl. unfold bind. rewrite Hce. simpl. exact IH.
Qed.

Lemma conditional_taken cfg l c cond b post st1 st2 :
  cond_taken cfg cond st1 st2 ->
  evalConditionals (evalConditional cfg) (ConditionalBlock l c cond b :: post) st1
    = (let '(st3, r) := evalBlockCaptureAll cfg b st2 in
       (st3, match r with ROk os => ROk (toSingleOrSliceObject os) | RErr e => RErr e end)).
Proof.
  intros Hc. simpl. unfold bind.
  destruct cond as [ce|]; simpl in Hc.
  - rewrite Hc. simpl.
    destruct (evalBlockCaptureAll cfg b st2) as [st3 [os|e]]; reflexivity.
  - subst st2. simpl.
    destruct (evalBlockCaptureAll cfg b st1) as [st3 [os|e]]; reflexivity.
Qed.

(** C5: an if expression evaluates its conditionals in order; at the
    first one whose condition is absent or true, the value is the
    collapse of its block's captured values (all earlier conditions
    false), and with every condition false it is nil.  The collapse maps
    the empty list to nil, one value to itself, more to the sequence; and
    [if true "x" end] evaluates to "x", [if false "x" end] to nil. *)
Theorem if_first_true_conditional :
  (forall cfg l c pre l' c' cond b post st st1 st2,
     conds_false cfg pre st st1 ->
     cond_taken cfg cond st1 st2 ->
     evalExpression cfg (IfExpression l c (pre ++ ConditionalBlock l' c' cond b :: post)) st
       = (let '(st3, r) := evalBlockCaptureAll cfg b st2 in
          (st3, match r with ROk os => ROk (toSingleOrSliceObject os) | RErr e => RErr e end))) /\
  (forall cfg l c conds st st1,
     conds_false cfg conds st st1 ->
     evalExpression cfg (IfExpression l c conds) st = (st1, ROk VNil)) /\
  (toSingleOrSliceObject [] = VNil /\
   (forall o, toSingleOrSliceObject [o] = o) /\
   (forall o1 o2 os, toSingleOrSliceObject (o1 :: o2 :: os) = VSeq (o1 :: o2 :: os))) /\
  (forall cfg s,
     option_map snd (evalSource cfg ("if true " ++ quoted "x" ++ " end") true s)
       = Some (ROk (VString "x")) /\
     option_map snd (evalSource cfg ("if false " ++ quoted "x" ++ " end") true s)
       = Some (ROk VNil)).
Proof.
  split; [|split; [|split]].
  - intros cfg l c pre l' c' cond b post st st1 st2 Hpre Hc.
    rewrite evalIf_conditionals, (conditionals_skip cfg pre _ st st1 Hpre).
    apply conditional_taken. exact Hc.
  - intros cfg l c conds st st1 H.
    rewrite evalIf_conditionals, <- (app_nil_r conds), (conditionals_skip cfg conds [] st st1 H).
    reflexivity.
  - split; [reflexivity | split; reflexivity].
  - intros cfg s. split; reflexivity.
Qed.

(** Witness of C5: one false condition, then an else block. *)
Lemma if_first_true_conditional_witness :
  let cfg := host_cfg InfixAndOr (fun _ ks => ks) (fun _ => HostVals []) in
  let st := initial [] in
  let b := Block 1 20 [ExpressionStatement 1 20 (IntLiteral 1 20 5)] in
  conds_false cfg [ConditionalBlock 1 1 (Some (BoolLiteral 1 4 false)) (Block 1 10 [])] st st /\
  cond_taken cfg None st st /\
  evalExpression cfg (IfExpression 1 1 ([ConditionalBlock 1 1 (Some (BoolLiteral 1 4 false)) (Block 1 10 [])]
                                        ++ ConditionalBlock 1 15 None b :: [])) st
    = (let '(st3, r) := evalBlockCaptureAll cfg b st in
       (st3, match r with ROk os => ROk (toSingleOrSliceObject os) | RErr e => RErr e end)).
Proof.
  intros cfg st b.
  assert (Hf : conds_false cfg [ConditionalBlock 1 1 (Some (BoolLiteral 1 4 false)) (Block 1 10 [])] st st).
  { econstructor; [reflexivity | constructor]. }
  split; [exact Hf | split; [reflexivity|]].
  exact (proj1 if_first_true_conditional cfg 1 1 _ 1 15 None b [] st st st Hf eq_refl).
Defined.

End IfFacts.

Module HashFacts.
Import Eval Run.

Lemma assoc_lookup_map {A B} (f : A -> B) (k : string) (l : list (string * A)) :
  assoc_lookup k (map (fun kv => (fst kv, f (snd kv))) l) = option_map f (assoc_lookup k l).
Proof.
  unfold assoc_lookup. induction l as [|[k' a] l IH]; simpl; [reflexivity|].
  destruct (String.eqb k' k); [reflexivity | exact IH].
Qed.

Lemma assoc_lookup_snoc_other {A} (k k' : string) (a : A) (acc : list (string * A)) :
  assoc_lookup k acc = None -> k <> k' -> assoc_lookup k (acc ++ [(k', a)]) = None.
Proof.
  unfold assoc_lookup. induction acc as [|[k'' b] acc IH]; simpl; intros H Hne.
  - destruct (String.eqb k' k) eqn:E; [apply String.eqb_eq in E; congruence | reflexivity].
  - destruct (String.eqb k'' k); [discriminate | exact (IH H Hne)].
Qed.

Lemma assoc_lookup_in {A} (k : string) (l : list (string * A)) :
  In k (map fst l) -> exists a, assoc_lookup k l = Some a.
Proof.
  unfold assoc_lookup. induction l as [|[k' a] l IH]; simpl; [tauto|].
  intros Hin. destruct (String.eqb k' k) eqn:E; [eexists; reflexivity|].
  destruct Hin as [-> | Hin]; [rewrite String.eqb_refl in E; discriminate | exact (IH Hin)].
Qed.

Lemma evalHashEntries_sequential cfg line col entries ks acc st :
  NoDup ks ->
  (forall k, In k ks -> assoc_lookup k acc = None) ->
  (forall k, In k ks -> In k (map fst entries)) ->
  evalHashEntries line col (map (fun kv => (fst kv, evalExpression cfg (snd kv))) entries) ks acc st
    = (let '(st', r) := evalList (map (fun k => evalExpression cfg (entry_expr entries k)) ks) st in
       (st', match r with ROk vs => ROk (VMap (acc ++ combine ks vs)) | RErr e => RErr e end)).
Proof.
  revert acc st. induction ks as [|k ks IH]; intros acc st Hnd Hacc Hin.
  - simpl. rewrite app_nil_r. reflexivity.
  - inversion Hnd as [|? ? Hk Hnd']; subst.
    destruct (assoc_lookup_in k entries (Hin k (or_introl eq_refl))) as [e He].
    simpl. rewrite (Hacc k (or_introl eq_refl)), assoc_lookup_map, He. simpl.
    unfold entry_expr at 1. rewrite He. unfold bind.
    destruct (evalExpression cfg e st) as [st1 [v|err]]; [|reflexivity].
    rewrite IH; [| exact Hnd' | | intros k' Hk'; exact (Hin k' (or_intror Hk'))].
    + destruct (evalList _ st1) as [st2 [vs|err]]; [|reflexivity].
      simpl. rewrite <- app_assoc. reflexivity.
    + intros k' Hk'. apply assoc_lookup_snoc_other; [exact (Hacc k' (or_intror Hk')) |].
      intros ->. exact (Hk (proj2 (list_elem_of_In _ _) Hk')).
Qed.

(** C8 (amended): a hash expression with distinct keys (as the parser
    stores them) evaluates its value expressions one after the other,
    each once, in the iteration order the Go runtime picks for that
    range over the map of entries (any enumeration of the keys, chosen
    anew at every evaluation), and pairs each key with its value in the
    resulting map. *)
Theorem hash_values_in_map_order cfg line col entries st :
  NoDup (map fst entries) ->
  Permutation (map_order cfg (ranges st) (map fst entries)) (map fst entries) ->
  evalExpression cfg (HashExpression line col entries) st
    = (let order := map_order cfg (ranges st) (map fst entries) in
       let '(st', r) := evalList (map (fun k => evalExpression cfg (entry_expr entries k)) order)
                                 (set_ranges st (S (ranges st))) in
       (st', match r with ROk vs => ROk (VMap (combine order vs)) | RErr e => RErr e end)).
Proof.
  intros Hnd Hperm. simpl. unfold evalHashExpression, bind, get, modify.
  rewrite map_map. simpl.
  change (map (fun x => fst x) entries) with (map fst entries).
  rewrite (evalHashEntries_sequential cfg line col entries _ [] _).
  - reflexivity.
  - apply NoDup_ListNoDup. apply (Permutation_NoDup (Permutation_sym Hperm)).
    apply NoDup_ListNoDup. exact Hnd.
  - intros k _. reflexivity.
  - intros k Hk. exact (Permutation_in _ Hperm Hk).
Qed.

(** A hash of two calls of the host function f, in the order a, b of
    the source text. *)
Definition two_calls : string :=
  "{" ++ quoted "a" ++ ": f(1), " ++ quoted "b" ++ ": f(2)}".

Definition calls_of (cfg : config) (src : string) : option (list (Z * list value)) :=
  option_map (fun r => calls (fst r)) (evalSource cfg src true (top [("f", VFunc 0)])).

(** Witness of C8: the entries a, b visited in the order b, a. *)
Lemma hash_values_in_map_order_witness :
  let cfg := host_cfg InfixAndOr (fun _ ks => rev ks) (fun args => HostVals args) in
  let entries := [("a", IntLiteral 1 7 1); ("b", IntLiteral 1 15 2)] in
  NoDup (map fst entries) /\
  Permutation (map_order cfg 0 (map fst entries)) (map fst entries) /\
  evalExpression cfg (HashExpression 1 1 entries) (initial [])
    = (set_ranges (initial []) 1, ROk (VMap [("b", VInt 2); ("a", VInt 1)])).
Proof.
  intros cfg entries.
  assert (Hnd : NoDup (map fst entries)).
  { apply NoDup_ListNoDup. simpl. repeat constructor; simpl; intuition discriminate. }
  assert (Hp : Permutation (map_order cfg 0 (map fst entries)) (map fst entries)).
  { simpl. apply perm_swap. }
  split; [exact Hnd | split; [exact Hp |]].
  exact (hash_values_in_map_order cfg 1 1 entries (initial []) Hnd Hp).
Defined.

(** Counterexample to C8 as stated: the entries of the same source are
    evaluated a then b under one iteration order and b then a under
    another, and a runtime that alternates its orders evaluates the same
    hash expression in two different orders within one run (a loop over
    two values). *)
Lemma hash_entry_order_not_source_order :
  calls_of (host_cfg InfixAndOr (fun _ ks => ks) (fun args => HostVals args)) two_calls
    = Some [(0, [VInt 1]); (0, [VInt 2])] /\
  calls_of (host_cfg InfixAndOr (fun _ ks => rev ks) (fun args => HostVals args)) two_calls
    = Some [(0, [VInt 2]); (0, [VInt 1])] /\
  option_map (fun r => calls (fst r))
    (evalSource (host_cfg InfixAndOr (fun n ks => if Nat.even n then ks else rev ks)
                          (fun args => HostVals args))
                ("for i in r " ++ two_calls ++ " end") true
                (top [("f", VFunc 0); ("r", VRanger [VInt 0; VInt 0])]))
    = Some [(0, [VInt 1]); (0, [VInt 2]); (0, [VInt 2]); (0, [VInt 1])].
Proof. vm_compute. split; [reflexivity | split; reflexivity]. Qed.

End HashFacts.

Module ForFacts.
Import Eval Run.

(** The value of a body that just names [name], run in a scope whose
    innermost frame binds [name]: the body's child scope holds nothing,
    so the lookup reaches that frame. *)
Lemma Value_under_child_frame m (S : Scope.chain value) name (x : value) :
  Scope.Value (Scope.empty_frame :: Scope.mk_frame (<[name:=x]> m) false :: S) name = Some x.
Proof. simpl. rewrite lookup_empty. simpl. rewrite lookup_insert_eq. reflexivity. Qed.

Lemma ident_block_value cfg bl bc sl sc il ic name S m ll cs rg (x : value) :
  evalBlockCaptureAll cfg (Block bl bc [ExpressionStatement sl sc (Ident (mk_ident il ic name))])
    (mk_evst (Scope.mk_frame (<[name:=x]> m) false :: S) ll false false cs rg)
  = (mk_evst (Scope.mk_frame (<[name:=x]> m) false :: S) ll false false cs rg, ROk [x]).
Proof.
  simpl. unfold withChildScope, bind, get, ret, set_scope. cbn -[Scope.Value].
  rewrite Value_under_child_frame. reflexivity.
Qed.

(** The loop of a for expression whose main and status identifiers are
    both [name], unbound outside the loop scope: at each element the
    status Set overwrites the element Set in the loop scope, so a body
    returning the value of [name] yields the status of every iteration. *)
Lemma forLoop_same_name_statuses name (S0 : Scope.chain value) n (body : M (list value)) :
  Scope.HasValue S0 name = false ->
  (forall m ll cs rg x,
     body (mk_evst (Scope.mk_frame (<[name:=x]> m) false :: S0) ll false false cs rg)
     = (mk_evst (Scope.mk_frame (<[name:=x]> m) false :: S0) ll false false cs rg, ROk [x])) ->
  forall rest i os m ll cs rg,
  exists m',
  forLoop name (Some name) body n i rest os (mk_evst (Scope.mk_frame m false :: S0) ll false false cs rg)
  = (mk_evst (Scope.mk_frame m' false :: S0) ll false false cs rg,
     ROk (os ++ map (fun j => VStatus (rangerStatus j n)) (seq i (length rest)))).
Proof.
  intros Hun Hbody rest. induction rest as [|v rest IH]; intros i os m ll cs rg.
  - exists m. simpl. rewrite app_nil_r. reflexivity.
  - simpl. unfold bind, modify, scopeSet, get, ret, set_scope, set_continue. simpl.
    rewrite (ScopeFacts.set_in_parents_unbound S0 name v Hun). simpl.
    rewrite (ScopeFacts.set_in_parents_unbound S0 name _ Hun). simpl.
    unfold Scope.put. simpl. rewrite Hbody. simpl.
    destruct (IH (S i) (os ++ [VStatus (rangerStatus i n)])
                (<[name:=VStatus (rangerStatus i n)]> (<[name:=v]> ∅)) ll cs rg) as [m' Hm'].
    exists m'. rewrite Hm'. rewrite <- app_assoc. reflexivity.
Qed.

(** C3 (amended): a for expression [for name, name in r name end] whose
    identifier [name] is bound in no enclosing scope, over a ranger [r] of
    elements [xs], is not an evaluation error.  Both in-use checks consult
    only the enclosing scopes, before the loop scope exists; in every
    iteration the status Set overwrites the element binding in the loop
    scope, so the body sees the status.  The result is the collapse of the
    statuses of all iterations, and the state is unchanged. *)
Theorem for_same_ident_binds_status cfg line col name l1 c1 l2 c2 rl rc r xs bl bc sl sc il ic st :
  Scope.HasValue (scope st) name = false ->
  Scope.Value (scope st) r = Some (VRanger xs) ->
  breakRequested st = false -> continueRequested st = false ->
  evalExpression cfg
    (ForExpression line col (mk_ident l1 c1 name) (Some (mk_ident l2 c2 name))
       (Ident (mk_ident rl rc r))
       (Block bl bc [ExpressionStatement sl sc (Ident (mk_ident il ic name))])) st
  = (st, ROk (toSingleOrSliceObject
                (map (fun i => VStatus (rangerStatus i (length xs))) (seq 0 (length xs))))).
Proof.
  destruct st as [S0 ll br co cs rg]; simpl. intros Hun Hr -> ->.
  cbn -[evalBlockCaptureAll Scope.HasValue Scope.Value].
  unfold bind, get. cbn -[evalBlockCaptureAll Scope.HasValue Scope.Value].
  rewrite Hun. cbn -[evalBlockCaptureAll Scope.HasValue Scope.Value]. rewrite Hr.
  cbn -[evalBlockCaptureAll forLoop].
  unfold withLoopScope, evalForLoop, set_loopLevel, set_scope, Scope.empty_frame.
  cbn -[evalBlockCaptureAll forLoop].
  match goal with |- context [forLoop name (Some name) ?b] =>
    destruct (forLoop_same_name_statuses name S0 (length xs) b Hun
                (fun m ll cs rg x => ident_block_value cfg bl bc sl sc il ic name S0 m ll cs rg x)
                xs 0 [] ∅ (ll + 1) cs rg) as [m' Hm] end.
  rewrite Hm. simpl. unfold ret. replace (ll + 1 - 1)%Z with ll by lia. reflexivity.
Qed.

Lemma for_same_ident_binds_status_witness :
  let cfg := host_cfg InfixAndOr (fun _ ks => ks) (fun _ => HostVals []) in
  let st := mk_evst (top [("r", VRanger [VInt 1; VInt 2])]) 0 false false [] 0 in
  evalExpression cfg
    (ForExpression 1 1 (mk_ident 1 5 "i") (Some (mk_ident 1 8 "i"))
       (Ident (mk_ident 1 13 "r"))
       (Block 1 15 [ExpressionStatement 1 15 (Ident (mk_ident 1 15 "i"))])) st
  = (st, ROk (toSingleOrSliceObject
                (map (fun i => VStatus (rangerStatus i 2)) (seq 0 2)))).
Proof.
  intros cfg st.
  apply (for_same_ident_binds_status cfg 1 1 "i" 1 5 1 8 1 13 "r" [VInt 1; VInt 2]
           1 15 1 15 1 15 st); reflexivity.
Defined.

(** C3 counterexample: the source [for i, i in r i end], in code mode,
    over a ranger of two elements, evaluates without error to the
    statuses of the two iterations. *)
Lemma for_same_ident_no_error :
  let cfg := host_cfg InfixAndOr (fun _ ks => ks) (fun _ => HostVals []) in
  option_map snd (evalSource cfg "for i, i in r i end" true
                    (top [("r", VRanger [VInt 1; VInt 2])]))
  = Some (ROk (VSeq [VStatus (rangerStatus 0 2); VStatus (rangerStatus 1 2)])).
Proof. vm_compute. reflexivity. Qed.

End ForFacts.


Module ScopeLookupFacts.
Import Scope.

Section Facts.
Context {V : Type}.
Implicit Types (f : frame V) (ps s : chain V) (name : string) (v : V).

Lemma hasValueSelf_lookup f name :
  hasValueSelf f name = true <-> values f !! name <> None.
Proof.
  unfold hasValueSelf. rewrite bool_decide_eq_true.
  destruct (values f !! name); split; intros H; try discriminate; try done.
Qed.

Lemma hasValueSelf_none f name :
  hasValueSelf f name = false -> values f !! name = None.
Proof.
  intros H. destruct (values f !! name) eqn:E; [|reflexivity].
  assert (hasValueSelf f name = true) by (apply hasValueSelf_lookup; congruence). congruence.
Qed.

Lemma HasValue_Value_agree s name :
  HasValue s name = true <-> Value s name <> None.
Proof.
  induction s as [|f ps IH]; simpl.
  - split; [discriminate | congruence].
  - rewrite orb_true_iff, hasValueSelf_lookup, IH.
    destruct (values f !! name); split; intros H; try congruence.
    + left. congruence.
    + destruct H; congruence.
    + right. exact H.
Qed.

Lemma set_in_parents_other ps ps' name name' v :
  name' <> name -> set_in_parents ps name v = Some ps' ->
  Value ps' name' = Value ps name' /\ map locked ps' = map locked ps.
Proof.
  intros Hne. revert ps'. induction ps as [|p ps IH]; intros ps' H; simpl in H; [discriminate|].
  destruct (hasValueSelf p name).
  - injection H as <-. simpl. unfold put. simpl. rewrite lookup_insert_ne by congruence. auto.
  - destruct (set_in_parents ps name v) as [ps''|] eqn:E; simpl in H; [|discriminate].
    injection H as <-. destruct (IH ps'' eq_refl) as [H1 H2]. simpl. rewrite H1, H2. auto.
Qed.

Lemma Set_keeps_other s name name' v :
  name' <> name ->
  Value (Set_ s name v) name' = Value s name' /\
  HasValue (Set_ s name v) name' = HasValue s name' /\
  map locked (Set_ s name v) = map locked s /\
  length (Set_ s name v) = length s.
Proof.
  intros Hne.
  assert (Hv : Value (Set_ s name v) name' = Value s name' /\
               map locked (Set_ s name v) = map locked s).
  { destruct s as [|f ps]; [auto|]. simpl.
    destruct (set_in_parents ps name v) as [ps'|] eqn:E.
    - destruct (set_in_parents_other ps ps' name name' v Hne E) as [H1 H2].
      simpl. rewrite H1, H2. auto.
    - destruct (locked f) eqn:Hl; [split; [reflexivity|simpl; congruence]|]. simpl. unfold put. simpl.
      rewrite lookup_insert_ne by congruence. rewrite Hl. auto. }
  destruct Hv as [Hv Hl]. split; [exact Hv|]. split; [|split; [exact Hl|]].
  - destruct (HasValue (Set_ s name v) name') eqn:E1, (HasValue s name') eqn:E2; try reflexivity.
    + apply HasValue_Value_agree in E1. rewrite Hv in E1. apply HasValue_Value_agree in E1. congruence.
    + apply HasValue_Value_agree in E2. rewrite <- Hv in E2. apply HasValue_Value_agree in E2. congruence.
  - rewrite <- (length_map locked (Set_ s name v)), Hl, length_map. reflexivity.
Qed.

Lemma set_in_parents_bound ps name v :
  HasValue ps name = true ->
  exists ps', set_in_parents ps name v = Some ps' /\ Value ps' name = Some v.
Proof.
  induction ps as [|p ps IH]; simpl; [discriminate|]. intros H.
  destruct (hasValueSelf p name) eqn:Hp.
  - eexists. split; [reflexivity|]. simpl. unfold put. simpl. rewrite lookup_insert_eq. reflexivity.
  - simpl in H. destruct (IH H) as [ps' [E Hv]]. rewrite E. simpl. eexists. split; [reflexivity|].
    simpl. rewrite (hasValueSelf_none p name Hp). exact Hv.
Qed.

Lemma set_in_parents_none ps name v :
  HasValue ps name = false -> set_in_parents ps name v = None.
Proof.
  induction ps as [|p ps IH]; simpl; [reflexivity|]. intros H.
  apply orb_false_iff in H as [H1 H2]. rewrite H1, (IH H2). reflexivity.
Qed.

Lemma Value_Set_same f ps name v :
  Value (Set_ (f :: ps) name v) name =
    if HasValue ps name then
      match values f !! name with Some u => Some u | None => Some v end
    else if locked f then Value (f :: ps) name else Some v.
Proof.
  destruct (HasValue ps name) eqn:Hp.
  - destruct (set_in_parents_bound ps name v Hp) as [ps' [E Hv]].
    simpl. rewrite E. simpl. rewrite Hv. reflexivity.
  - simpl. rewrite (set_in_parents_none ps name v Hp).
    destruct (locked f); [reflexivity|]. simpl. unfold put. simpl.
    rewrite lookup_insert_eq. reflexivity.
Qed.

(** X1: HasValue and Value agree: a name has a value in a scope exactly
    when Value finds one, in the scope or one of its parents. *)
Theorem HasValue_iff_Value s name :
  HasValue s name = true <-> Value s name <> None.
Proof. exact (HasValue_Value_agree s name). Qed.

(** X2: Set never changes what another name resolves to, nor whether it
    is bound, and keeps the number of scopes and every scope's lock. *)
Theorem Set_other_names s name name' v :
  name' <> name ->
  Value (Set_ s name v) name' = Value s name' /\
  HasValue (Set_ s name v) name' = HasValue s name' /\
  map locked (Set_ s name v) = map locked s /\
  length (Set_ s name v) = length s.
Proof. exact (Set_keeps_other s name name' v). Qed.

(** X3: what Value returns for a name just Set on [f :: ps].  When a
    parent binds the name, the parent is updated, but a binding of [f]
    itself still shadows it, so Value keeps returning [f]'s old value;
    when no parent binds it and [f] is locked, nothing changes;
    otherwise Value returns the new value. *)
Theorem Value_after_Set f ps name v :
  Value (Set_ (f :: ps) name v) name =
    if HasValue ps name then
      match values f !! name with Some u => Some u | None => Some v end
    else if locked f then Value (f :: ps) name else Some v.
Proof. exact (Value_Set_same f ps name v). Qed.
End Facts.

(** Witness of X2 at a chain whose parent binds x. *)
Lemma Set_other_names_witness :
  let s := [mk_frame (<["y" := 5%Z]> ∅) false; mk_frame (<["x" := 1%Z]> ∅) true] in
  "y" <> "x" /\
  Value (Set_ s "x" 7%Z) "y" = Value s "y" /\
  HasValue (Set_ s "x" 7%Z) "y" = HasValue s "y" /\
  map locked (Set_ s "x" 7%Z) = map locked s /\
  length (Set_ s "x" 7%Z) = length s.
Proof.
  intros s. assert (H : "y" <> "x") by discriminate.
  split; [exact H|]. exact (Set_other_names s "x" "y" 7%Z H).
Defined.
End ScopeLookupFacts.


Module RangerFacts.
Import Eval Ranger.

Lemma wrap64_small z : -2^63 <= z < 2^63 -> wrap64 z = z.
Proof. intros H. unfold wrap64. rewrite Z.mod_small by lia. lia. Qed.

Lemma wrap64_add_l a b : wrap64 (wrap64 a + b) = wrap64 (a + b).
Proof.
  unfold wrap64. f_equal.
  replace ((a + 2 ^ 63) mod 2 ^ 64 - 2 ^ 63 + b + 2 ^ 63) with ((a + 2 ^ 63) mod 2 ^ 64 + b) by lia.
  rewrite Zplus_mod_idemp_l. f_equal. lia.
Qed.

Lemma statusOf_rangerStatus (k n : nat) :
  statusOf (Z.of_nat k) (Z.of_nat n - 1) = rangerStatus k n.
Proof. reflexivity. Qed.

Lemma intRanger_loop min max (n : nat) :
  -2^63 <= min -> max <= 2^63 - 1 -> max - min <= 2^63 - 1 -> Z.of_nat n = max - min ->
  forall m k fuel, (k + m = n)%nat -> (m < fuel)%nat ->
  iterate fuel (IntRanger (mk_intRanger min max (wrap64 (min + Z.of_nat k - 1))))
  = Some (map (fun j => (Item (VInt (min + Z.of_nat j)), rangerStatus j n)) (seq k m)).
Proof.
  intros Hmin Hmax Hd Hn m. induction m as [|m IH]; intros k fuel Hk Hf;
    destruct fuel as [|fuel]; try lia; simpl.
  - rewrite wrap64_add_l. replace (min + Z.of_nat k - 1 + 1) with (min + Z.of_nat k) by lia.
    rewrite wrap64_small by lia.
    replace (min + Z.of_nat k <? max) with false by (symmetry; apply Z.ltb_ge; lia).
    reflexivity.
  - rewrite wrap64_add_l. replace (min + Z.of_nat k - 1 + 1) with (min + Z.of_nat k) by lia.
    rewrite wrap64_small by lia.
    replace (min + Z.of_nat k <? max) with true by (symmetry; apply Z.ltb_lt; lia).
    simpl.
    replace (wrap64 (min + Z.of_nat k - min)) with (Z.of_nat k)
      by (rewrite wrap64_small by lia; lia).
    replace (wrap64 (wrap64 (max - min) - 1)) with (Z.of_nat n - 1)
      by (rewrite (wrap64_small (max - min)) by lia; rewrite wrap64_small by lia; lia).
    rewrite statusOf_rangerStatus.
    replace (min + Z.of_nat k) with (wrap64 (min + Z.of_nat (S k) - 1)) at 2
      by (rewrite wrap64_small by lia; lia).
    rewrite (IH (S k) fuel) by lia. reflexivity.
Qed.

Lemma sliceRanger_loop xs (n : nat) :
  length xs = n ->
  forall m k fuel, (k + m = n)%nat -> (m < fuel)%nat ->
  iterate fuel (SliceRanger (mk_sliceRanger xs (Z.of_nat k - 1)))
  = Some (map (fun j => (Item (nth j xs VNil), rangerStatus j n)) (seq k m)).
Proof.
  intros Hn m. induction m as [|m IH]; intros k fuel Hk Hf;
    destruct fuel as [|fuel]; try lia; simpl.
  - replace (Z.of_nat k - 1 + 1 <? Z.of_nat (length xs)) with false
      by (symmetry; apply Z.ltb_ge; lia). reflexivity.
  - replace (Z.of_nat k - 1 + 1 <? Z.of_nat (length xs)) with true
      by (symmetry; apply Z.ltb_lt; lia).
    replace (Z.of_nat k - 1 + 1) with (Z.of_nat k) by lia. simpl.
    replace (0 <=? Z.of_nat k) with true by (symmetry; apply Z.leb_le; lia).
    rewrite Nat2Z.id. rewrite (nth_error_nth' xs VNil) by lia. simpl.
    rewrite Hn, statusOf_rangerStatus.
    pose proof (IH (S k) fuel ltac:(lia) ltac:(lia)) as IH'.
    replace (Z.of_nat (S k) - 1) with (Z.of_nat k) in IH' by lia.
    rewrite IH'. reflexivity.
Qed.

Lemma hashRanger_loop kvs ks (n : nat) :
  length ks = n ->
  forall m k fuel, (k + m = n)%nat -> (m < fuel)%nat ->
  iterate fuel (HashRanger (mk_hashRanger kvs ks (Z.of_nat k - 1)))
  = Some (map (fun j => (HashEntry (nth j ks ""%string)
                            (match assoc_lookup (nth j ks ""%string) kvs with Some v => v | None => VNil end),
                         rangerStatus j n)) (seq k m)).
Proof.
  intros Hn m. induction m as [|m IH]; intros k fuel Hk Hf;
    destruct fuel as [|fuel]; try lia; simpl.
  - replace (Z.of_nat k - 1 + 1 <? Z.of_nat (length ks)) with false
      by (symmetry; apply Z.ltb_ge; lia). reflexivity.
  - replace (Z.of_nat k - 1 + 1 <? Z.of_nat (length ks)) with true
      by (symmetry; apply Z.ltb_lt; lia).
    replace (Z.of_nat k - 1 + 1) with (Z.of_nat k) by lia. simpl.
    replace (0 <=? Z.of_nat k) with true by (symmetry; apply Z.leb_le; lia).
    rewrite Nat2Z.id. rewrite (nth_error_nth' ks ""%string) by lia. simpl.
    rewrite Hn, statusOf_rangerStatus.
    pose proof (IH (S k) fuel ltac:(lia) ltac:(lia)) as IH'.
    replace (Z.of_nat (S k) - 1) with (Z.of_nat k) in IH' by lia.
    rewrite IH'. reflexivity.
Qed.

(** For 64-bit bounds with min < max and max - min at most MaxInt64,
    iterating NewInt(min, max) yields the integers min, min+1, ...,
    max-1 in order, the j-th with the Status of index j out of max -
    min (min = MinInt64 included, where min - 1 wraps around).
    NewInt panics exactly when max <= min. *)
Theorem NewInt_iterate min max fuel :
  -2^63 <= min -> max <= 2^63 - 1 -> max - min <= 2^63 - 1 ->
  (Z.to_nat (max - min) < fuel)%nat ->
  option_map (iterate fuel) (NewInt min max)
  = if max <=? min then None
    else Some (Some (map (fun j => (Item (VInt (min + Z.of_nat j)),
                                    rangerStatus j (Z.to_nat (max - min))))
                         (seq 0 (Z.to_nat (max - min))))).
Proof.
  intros Hmin Hmax Hd Hf. unfold NewInt.
  destruct (max <=? min) eqn:Hle; [reflexivity|]. apply Z.leb_gt in Hle. simpl.
  replace (min - 1) with (min + Z.of_nat 0 - 1) by lia.
  rewrite (intRanger_loop min max (Z.to_nat (max - min)) Hmin Hmax Hd ltac:(lia) (Z.to_nat (max - min)) 0) by lia.
  reflexivity.
Qed.

(** For min <= max < MaxInt64 (and max - min + 1 at most MaxInt64),
    iterating NewFromTo(min, max) yields min, ..., max inclusive
    with their statuses; NewFromTo panics exactly when max < min. *)
Theorem NewFromTo_iterate min max fuel :
  -2^63 <= min -> -2^63 <= max < 2^63 - 1 -> max - min < 2^63 - 1 ->
  (Z.to_nat (max - min + 1) < fuel)%nat ->
  option_map (iterate fuel) (NewFromTo min max)
  = if max <? min then None
    else Some (Some (map (fun j => (Item (VInt (min + Z.of_nat j)),
                                    rangerStatus j (Z.to_nat (max - min + 1))))
                         (seq 0 (Z.to_nat (max - min + 1))))).
Proof.
  intros Hmin Hmax Hd Hf. unfold NewFromTo.
  rewrite wrap64_small by lia.
  rewrite NewInt_iterate by lia.
  replace (max + 1 - min) with (max - min + 1) by lia.
  destruct (Z.ltb_spec max min), (Z.leb_spec (max + 1) min); try lia; reflexivity.
Qed.

(** NewFromTo(min, MaxInt64) always panics: maxInclusive + 1 wraps
    around to MinInt64, which is never greater than min. *)
Theorem NewFromTo_max_int min : -2^63 <= min -> NewFromTo min (2^63 - 1) = None.
Proof.
  intros H. unfold NewFromTo, NewInt.
  replace (wrap64 (2^63 - 1 + 1)) with (-2^63) by reflexivity.
  replace (-2^63 <=? min) with true by (symmetry; apply Z.leb_le; lia).
  reflexivity.
Qed.

(** A ranger made by New from a slice or array yields its elements
    in index order, each with the Status of its index out of the
    slice length (first, last, even, odd, hasMore); an empty slice
    yields nothing. *)
Theorem New_slice_iterate keysOf v xs fuel :
  (v = VSeq xs \/ v = VSlice xs) -> (length xs < fuel)%nat ->
  option_map (iterate fuel) (New keysOf v)
  = Some (Some (map (fun j => (Item (nth j xs VNil), rangerStatus j (length xs)))
                    (seq 0 (length xs)))).
Proof.
  intros Hv Hf.
  assert (E : New keysOf v = Some (SliceRanger (mk_sliceRanger xs (Z.of_nat 0 - 1))))
    by (destruct Hv; subst; reflexivity).
  rewrite E. simpl option_map.
  rewrite (sliceRanger_loop xs (length xs) eq_refl (length xs) 0 fuel) by lia.
  reflexivity.
Qed.

(** A ranger made by New from a map yields one HashEntry per key, in
    the order keys() produced, pairing each key with the map's value
    for it, with the status of its position. *)
Theorem New_hash_iterate keysOf kvs fuel :
  (length (keysOf kvs) < fuel)%nat ->
  option_map (iterate fuel) (New keysOf (VMap kvs))
  = Some (Some (map (fun j =>
                      (HashEntry (nth j (keysOf kvs) ""%string)
                         (match assoc_lookup (nth j (keysOf kvs) ""%string) kvs with
                          | Some v => v | None => VNil end),
                       rangerStatus j (length (keysOf kvs))))
                    (seq 0 (length (keysOf kvs))))).
Proof.
  intros Hf. simpl.
  replace (-1) with (Z.of_nat 0 - 1) by reflexivity.
  rewrite (hashRanger_loop kvs (keysOf kvs) (length (keysOf kvs)) eq_refl
             (length (keysOf kvs)) 0 fuel) by lia.
  reflexivity.
Qed.

(** For the i-th of n iterations (i < n), the status has Index i,
    First exactly when i = 0, Last exactly when i = n - 1, HasMore =
    not Last, Even when i is even and Odd = not Even. *)
Theorem rangerStatus_flags i n :
  (i < n)%nat ->
  st_index (rangerStatus i n) = Z.of_nat i /\
  (st_first (rangerStatus i n) = true <-> i = 0%nat) /\
  (st_last (rangerStatus i n) = true <-> S i = n) /\
  st_hasMore (rangerStatus i n) = negb (st_last (rangerStatus i n)) /\
  st_even (rangerStatus i n) = Nat.even i /\
  st_odd (rangerStatus i n) = negb (Nat.even i).
Proof.
  intros H. unfold rangerStatus; simpl.
  assert (Ev : (Z.rem (Z.of_nat i) 2 =? 0) = Nat.even i).
  { rewrite Z.rem_mod_nonneg by lia.
    change 2 with (Z.of_nat 2) at 1. rewrite <- (Nat2Z.inj_mod i 2).
    destruct (Nat.even i) eqn:He.
    - apply Nat.even_spec in He. destruct He as [q ->].
      rewrite Nat.mul_comm, Nat.Div0.mod_mul. reflexivity.
    - assert (Nat.odd i = true) as Ho by (unfold Nat.odd; rewrite He; reflexivity).
      apply Nat.odd_spec in Ho. destruct Ho as [q ->].
      replace (2 * q + 1)%nat with (1 + q * 2)%nat by lia.
      rewrite Nat.Div0.mod_add. reflexivity. }
  rewrite Ev. repeat split; try reflexivity.
  - intros E. apply Z.eqb_eq in E. lia.
  - intros ->. reflexivity.
  - intros E. apply Z.eqb_eq in E. lia.
  - intros <-. apply Z.eqb_eq. lia.
  - destruct (Z.ltb_spec (Z.of_nat i) (Z.of_nat n - 1)), (Z.eqb_spec (Z.of_nat i) (Z.of_nat n - 1));
      try lia; reflexivity.
Qed.

End RangerFacts.

Lemma NewInt_iterate_witness :
  option_map (Ranger.iterate 4) (Ranger.NewInt (-2^63) (-2^63 + 3))
  = Some (Some (map (fun j => (Ranger.Item (VInt (-2^63 + Z.of_nat j)),
                               Eval.rangerStatus j 3)) (seq 0 3))).
Proof.
  exact (RangerFacts.NewInt_iterate (-2^63) (-2^63 + 3) 4
           ltac:(lia) ltac:(lia) ltac:(lia) ltac:(vm_compute; lia)).
Defined.

Lemma NewFromTo_iterate_witness :
  option_map (Ranger.iterate 4) (Ranger.NewFromTo 2 4)
  = Some (Some (map (fun j => (Ranger.Item (VInt (2 + Z.of_nat j)),
                               Eval.rangerStatus j 3)) (seq 0 3))).
Proof.
  exact (RangerFacts.NewFromTo_iterate 2 4 4
           ltac:(lia) ltac:(lia) ltac:(lia) ltac:(vm_compute; lia)).
Defined.

Lemma NewFromTo_max_int_witness : Ranger.NewFromTo 0 (2^63 - 1) = None.
Proof. exact (RangerFacts.NewFromTo_max_int 0 ltac:(lia)). Defined.

Lemma New_slice_iterate_witness :
  option_map (Ranger.iterate 3) (Ranger.New (map fst) (VSlice [VInt 7; VNil]))
  = Some (Some [(Ranger.Item (VInt 7), Eval.rangerStatus 0 2);
                (Ranger.Item VNil, Eval.rangerStatus 1 2)]).
Proof.
  exact (RangerFacts.New_slice_iterate (map fst) _ [VInt 7; VNil] 3
           (or_intror eq_refl) ltac:(simpl; lia)).
Defined.

Lemma New_hash_iterate_witness :
  option_map (Ranger.iterate 3)
    (Ranger.New (map fst) (VMap [("a"%string, VInt 1); ("b"%string, VNil)]))
  = Some (Some [(Ranger.HashEntry "a" (VInt 1), Eval.rangerStatus 0 2);
                (Ranger.HashEntry "b" VNil, Eval.rangerStatus 1 2)]).
Proof.
  exact (RangerFacts.New_hash_iterate (map fst) [("a"%string, VInt 1); ("b"%string, VNil)] 3 ltac:(simpl; lia)).
Defined.

Lemma rangerStatus_flags_witness :
  st_index (Eval.rangerStatus 1 3) = 1 /\
  (st_first (Eval.rangerStatus 1 3) = true <-> 1%nat = 0%nat) /\
  (st_last (Eval.rangerStatus 1 3) = true <-> 2%nat = 3%nat) /\
  st_hasMore (Eval.rangerStatus 1 3) = negb (st_last (Eval.rangerStatus 1 3)) /\
  st_even (Eval.rangerStatus 1 3) = Nat.even 1 /\
  st_odd (Eval.rangerStatus 1 3) = negb (Nat.even 1).
Proof. exact (RangerFacts.rangerStatus_flags 1%nat 3%nat ltac:(lia)). Defined.


Module TemplateScopeFacts.
Import Scope TemplateScope.

Definition dataStep (s : chain value) (kv : string * value) : chain value :=
  match snd kv with VNil => s | v => Set_ s (fst kv) v end.

Lemma Set_head_shape (f : frame value) ps name v :
  exists f' ps', Set_ (f :: ps) name v = f' :: ps' /\ locked f' = locked f /\
    (forall k, k <> name -> values f' !! k = values f !! k) /\
    map locked ps' = map locked ps.
Proof.
  simpl. destruct (set_in_parents ps name v) as [ps'|] eqn:E.
  - exists f, ps'. split; [reflexivity|]. split; [reflexivity|]. split; [auto|].
    assert (Hn : exists x : string, x <> name).
    { destruct (String.eqb_spec name "a"%string); [exists "b"%string | exists "a"%string]; congruence. }
    destruct Hn as [x Hx].
    exact (proj2 (ScopeLookupFacts.set_in_parents_other ps ps' name x v Hx E)).
  - destruct (locked f) eqn:Hl.
    + exists f, ps. auto.
    + exists (put f name v), ps. split; [reflexivity|]. split; [exact Hl|]. split; [|reflexivity].
      intros k Hk. unfold put; simpl. rewrite lookup_insert_ne by congruence. reflexivity.
Qed.

Lemma fold_data_value data (f : frame value) ps k :
  NoDup (map fst data) -> locked f = false ->
  (forall k', In k' (map fst data) -> values f !! k' = None) ->
  Value (fold_left dataStep data (f :: ps)) k =
    match Eval.assoc_lookup k data with
    | Some VNil | None => Value (f :: ps) k
    | Some v => Some v
    end.
Proof.
  revert f ps. induction data as [|[k0 v0] rest IH]; intros f ps Hnd Hl Hf; [reflexivity|].
  simpl in Hnd. apply NoDup_cons in Hnd as [Hk0' Hnd].
  assert (Hk0 : ~ In k0 (map fst rest)) by (intros H; apply Hk0'; apply list_elem_of_In; exact H).
  assert (Hrest : forall f' ps', locked f' = false ->
            (forall k', In k' (map fst rest) -> values f' !! k' = None) ->
            Value (fold_left dataStep rest (f' :: ps')) k =
              match Eval.assoc_lookup k rest with
              | Some VNil | None => Value (f' :: ps') k
              | Some v => Some v end)
    by (intros; apply IH; auto).
  unfold Eval.assoc_lookup at 1. simpl List.find.
  simpl fold_left. unfold dataStep at 2. simpl fst; simpl snd.
  assert (Hnot : Eval.assoc_lookup k0 rest = None).
  { unfold Eval.assoc_lookup. destruct (List.find (fun kv => String.eqb (fst kv) k0) rest) as [[a b]|] eqn:E; [|reflexivity].
    apply List.find_some in E as [Hin Heq]. apply String.eqb_eq in Heq. simpl in Heq. subst a.
    exfalso. apply Hk0. apply (in_map fst) in Hin. exact Hin. }
  destruct v0 as [| z | b | s | s | xs | xs | kvs | xs | st | id | id];
  match goal with
  | |- Value (fold_left _ rest (f :: ps)) k = _ =>
      rewrite (Hrest f ps Hl (fun k' H => Hf k' (or_intror H)));
      destruct (String.eqb_spec k0 k) as [<-|Hne];
      [rewrite Hnot; reflexivity | fold (Eval.assoc_lookup k rest); reflexivity]
  | |- Value (fold_left _ rest (Set_ (f :: ps) k0 ?v)) k = _ =>
      destruct (Set_head_shape f ps k0 v) as [f' [ps' [E [El [Ev _]]]]];
      assert (Hst : Value (Set_ (f :: ps) k0 v) k0 = Some v)
        by (rewrite ScopeLookupFacts.Value_Set_same, Hl, (Hf k0 (or_introl eq_refl));
            destruct (HasValue ps k0); reflexivity);
      rewrite E; rewrite E in Hst;
      rewrite (Hrest f' ps' ltac:(congruence)
                 (fun k' H => eq_trans (Ev k' (fun e => Hk0 ltac:(subst; exact H)))
                                       (Hf k' (or_intror H))));
      destruct (String.eqb_spec k0 k) as [<-|Hne];
      [rewrite Hnot; exact Hst
      | fold (Eval.assoc_lookup k rest); rewrite <- E;
        rewrite (proj1 (ScopeLookupFacts.Set_keeps_other (f :: ps) k0 k v ltac:(congruence)));
        reflexivity]
  end.
Qed.

Lemma newTemplateScope_fold data parent :
  newTemplateScope data parent = fold_left dataStep data (empty_frame :: parent).
Proof. reflexivity. Qed.

Lemma newTemplateScope_value data parent k :
  NoDup (map fst data) ->
  Value (newTemplateScope data parent) k =
    match Eval.assoc_lookup k data with
    | Some VNil | None => Value parent k
    | Some v => Some v
    end.
Proof.
  intros Hnd. rewrite newTemplateScope_fold, fold_data_value; [| exact Hnd | reflexivity |].
  - simpl. rewrite lookup_empty. reflexivity.
  - intros. simpl. apply lookup_empty.
Qed.

Definition userStep (s : chain value) (kv : string * value) : chain value :=
  Set_ s (fst kv) (snd kv).

Lemma fold_user_single data (f : frame value) :
  locked f = false -> NoDup (map fst data) ->
  exists m, fold_left userStep data [f] = [mk_frame m false] /\
    forall k, m !! k = match Eval.assoc_lookup k data with
                       | Some v => Some v | None => values f !! k end.
Proof.
  revert f. induction data as [|[k0 v0] rest IH]; intros f Hl Hnd.
  - exists (values f). split; [destruct f; simpl in *; subst; reflexivity|]. reflexivity.
  - simpl in Hnd. apply NoDup_cons in Hnd as [Hk0' Hnd].
    assert (Hk0 : ~ In k0 (map fst rest)) by (intros H; apply Hk0'; apply list_elem_of_In; exact H).
    simpl fold_left. rewrite Hl.
    destruct (IH (put f k0 v0) Hl Hnd) as [m [E Hm]]. exists m. split; [exact E|].
    intros k. rewrite Hm. unfold Eval.assoc_lookup at 2. simpl.
    destruct (String.eqb_spec k0 k) as [<-|Hne].
    + assert (Hnot : Eval.assoc_lookup k0 rest = None).
      { unfold Eval.assoc_lookup. destruct (List.find (fun kv => String.eqb (fst kv) k0) rest) as [[a b]|] eqn:F; [|reflexivity].
        apply List.find_some in F as [Hin Heq]. apply String.eqb_eq in Heq. simpl in Heq. subst a.
        exfalso. apply Hk0. apply (in_map fst) in Hin. exact Hin. }
      rewrite Hnot. unfold put. simpl. rewrite lookup_insert_eq. reflexivity.
    + fold (Eval.assoc_lookup k rest). destruct (Eval.assoc_lookup k rest); [reflexivity|].
      unfold put. simpl. rewrite lookup_insert_ne by congruence. reflexivity.
Qed.

Lemma assoc_lookup_none_iff_in (data : list (string * value)) k :
  Eval.assoc_lookup k data <> None <-> In k (map fst data).
Proof.
  induction data as [|[k0 v0] rest IH]; [simpl; split; [intros H; exact (H eq_refl) | tauto]|].
  unfold Eval.assoc_lookup in *. simpl.
  destruct (String.eqb_spec k0 k) as [<-|Hne]; [split; [auto | congruence]|].
  rewrite IH. split; [auto|]. intros [H|H]; [congruence | exact H].
Qed.

Lemma rendererScope_shape scopeData name tf :
  NoDup (map fst scopeData) ->
  match rendererScope scopeData name tf with
  | None => In name (map fst scopeData)
  | Some rs =>
      ~ In name (map fst scopeData) /\
      exists m, rs = [mk_frame (<[name := tf]> ∅) true; mk_frame m true] /\
        forall k, m !! k = Eval.assoc_lookup k scopeData
  end.
Proof.
  intros Hnd. unfold rendererScope.
  change (fold_left (fun s kv => Set_ s kv.1 kv.2) scopeData [empty_frame])
    with (fold_left userStep scopeData [@empty_frame value]).
  destruct (fold_user_single scopeData empty_frame eq_refl Hnd) as [m [E Hm]].
  rewrite E.
  assert (Hv : forall k, m !! k = Eval.assoc_lookup k scopeData).
  { intros k. rewrite Hm. destruct (Eval.assoc_lookup k scopeData); [reflexivity|]. apply lookup_empty. }
  destruct (HasValue [mk_frame m false] name) eqn:Hh.
  - apply ScopeLookupFacts.HasValue_Value_agree in Hh. simpl in Hh.
    apply assoc_lookup_none_iff_in. rewrite <- Hv. destruct (m !! name); congruence.
  - assert (Hn : m !! name = None).
    { simpl in Hh. rewrite orb_false_r in Hh. apply ScopeLookupFacts.hasValueSelf_none in Hh. exact Hh. }
    split.
    + rewrite <- assoc_lookup_none_iff_in, <- Hv. congruence.
    + exists m. split; [|exact Hv]. simpl.
      unfold hasValueSelf. simpl. rewrite Hn. simpl. reflexivity.
Qed.

(** Renderer.Render fails before loading the template exactly when
    the template function name is a key of the scope data; otherwise
    the renderer scope finds the template function under that name
    and every other scope-data key under its value, and both scopes
    are locked. *)
Theorem rendererScope_lookup scopeData name tf :
  NoDup (map fst scopeData) ->
  match rendererScope scopeData name tf with
  | None => In name (map fst scopeData)
  | Some rs =>
      ~ In name (map fst scopeData) /\
      Value rs name = Some tf /\
      (forall k, k <> name -> Value rs k = Eval.assoc_lookup k scopeData) /\
      map locked rs = [true; true]
  end.
Proof.
  intros Hnd. pose proof (rendererScope_shape scopeData name tf Hnd) as H.
  destruct (rendererScope scopeData name tf) as [rs|]; [|exact H].
  destruct H as [Hin [m [-> Hm]]]. split; [exact Hin|]. split.
  - simpl. rewrite lookup_insert_eq. reflexivity.
  - split; [|reflexivity]. intros k Hk. simpl. rewrite lookup_insert_ne by congruence.
    rewrite lookup_empty. rewrite Hm. destruct (Eval.assoc_lookup k scopeData); reflexivity.
Qed.

(** With distinct data keys, a name in the template scope resolves
    to its data value when that value is non-nil; nil data values
    are skipped, and every other name resolves as in the parent
    scope. *)
Theorem newTemplateScope_lookup data parent k :
  NoDup (map fst data) ->
  Value (newTemplateScope data parent) k =
    match Eval.assoc_lookup k data with
    | Some VNil | None => Value parent k
    | Some v => Some v
    end.
Proof. exact (newTemplateScope_value data parent k). Qed.

(** In a template rendered by Renderer.Render, non-nil data values
    override both the scope data and the template function: a data
    key equal to the template function name hides the function;
    other names fall back to the function name, then to scope data. *)
Theorem render_scope_lookup scopeData data name tf rs k :
  NoDup (map fst scopeData) -> NoDup (map fst data) ->
  rendererScope scopeData name tf = Some rs ->
  Value (newTemplateScope data rs) k =
    match Eval.assoc_lookup k data with
    | Some VNil | None =>
        if String.eqb k name then Some tf else Eval.assoc_lookup k scopeData
    | Some v => Some v
    end.
Proof.
  intros Hs Hd Hr. rewrite (newTemplateScope_value data rs k Hd).
  pose proof (rendererScope_shape scopeData name tf Hs) as H. rewrite Hr in H.
  destruct H as [_ [m [-> Hm]]].
  assert (Hp : Value [mk_frame (<[name := tf]> ∅) true; mk_frame m true] k =
               if String.eqb k name then Some tf else Eval.assoc_lookup k scopeData).
  { simpl. destruct (String.eqb_spec k name) as [->|Hne].
    - rewrite lookup_insert_eq. reflexivity.
    - rewrite lookup_insert_ne by congruence. rewrite lookup_empty, Hm.
      destruct (Eval.assoc_lookup k scopeData); reflexivity. }
  rewrite Hp. reflexivity.
Qed.

End TemplateScopeFacts.

Lemma newTemplateScope_lookup_witness :
  NoDup (map fst [("a"%string, VInt 1); ("b"%string, VNil)]) /\
  Scope.Value (TemplateScope.newTemplateScope [("a"%string, VInt 1); ("b"%string, VNil)]
                 [Scope.mk_frame (<["b"%string := VInt 2]> ∅) true]) "b"%string = Some (VInt 2).
Proof.
  assert (H : NoDup (map fst [("a"%string, VInt 1); ("b"%string, VNil)]))
    by (apply (bool_decide_unpack _); vm_compute; reflexivity).
  split; [exact H|].
  exact (TemplateScopeFacts.newTemplateScope_lookup _ _ "b"%string H).
Defined.

Lemma rendererScope_lookup_witness :
  NoDup (map fst [("x"%string, VInt 1)]) /\
  match TemplateScope.rendererScope [("x"%string, VInt 1)] "tmpl"%string (VFunc 0) with
  | None => In "tmpl"%string (map fst [("x"%string, VInt 1)])
  | Some rs =>
      ~ In "tmpl"%string (map fst [("x"%string, VInt 1)]) /\
      Scope.Value rs "tmpl"%string = Some (VFunc 0) /\
      (forall k, k <> "tmpl"%string -> Scope.Value rs k = Eval.assoc_lookup k [("x"%string, VInt 1)]) /\
      map Scope.locked rs = [true; true]
  end.
Proof.
  assert (H : NoDup (map fst [("x"%string, VInt 1)]))
    by (apply (bool_decide_unpack _); vm_compute; reflexivity).
  split; [exact H|].
  exact (TemplateScopeFacts.rendererScope_lookup _ "tmpl"%string (VFunc 0) H).
Defined.

Lemma render_scope_lookup_witness :
  let sd := [("x"%string, VInt 1)] in
  let data := [("tmpl"%string, VInt 5)] in
  NoDup (map fst sd) /\ NoDup (map fst data) /\
  (exists rs, TemplateScope.rendererScope sd "tmpl"%string (VFunc 0) = Some rs /\
   Scope.Value (TemplateScope.newTemplateScope data rs) "tmpl"%string = Some (VInt 5)).
Proof.
  intros sd data.
  assert (H1 : NoDup (map fst sd)) by (apply (bool_decide_unpack _); vm_compute; reflexivity).
  assert (H2 : NoDup (map fst data)) by (apply (bool_decide_unpack _); vm_compute; reflexivity).
  split; [exact H1|]. split; [exact H2|].
  assert (Hr : TemplateScope.rendererScope sd "tmpl"%string (VFunc 0) =
               Some [Scope.mk_frame (<["tmpl"%string := VFunc 0]> ∅) true;
                     Scope.mk_frame (<["x"%string := VInt 1]> ∅) true]) by reflexivity.
  eexists. split; [exact Hr|].
  exact (TemplateScopeFacts.render_scope_lookup sd data "tmpl"%string (VFunc 0) _ "tmpl"%string H1 H2 Hr).
Defined.


Module InfixValueFacts.
Import Eval.

Lemma string_append_empty_r (s : string) : (s ++ "")%string = s.
Proof. induction s as [|a s IH]; [reflexivity | exact (f_equal (String a) IH)]. Qed.

(** The string + operator always yields a plain string, even when
    both operands are SafeStrings, so a non-empty concatenation is
    written as !UNSAFE! by the renderer. *)
Theorem string_plus_is_plain l r sl sr line col :
  string_kind l = Some sl -> string_kind r = Some sr ->
  evalInfixValues "+" l r line col = ROk (VString (sl ++ sr)) /\
  Render.write (VString (sl ++ sr)) = if String.eqb (sl ++ sr) "" then ""%string else Render.unsafe.
Proof.
  intros Hl Hr. split; [|reflexivity].
  unfold evalInfixValues. rewrite Hl, Hr. unfold evalStringInfixExpression. simpl.
  destruct (String.eqb_spec sl ""%string) as [->|Hl0]; [reflexivity|].
  destruct (String.eqb_spec sr ""%string) as [->|Hr0]; [rewrite string_append_empty_r|]; reflexivity.
Qed.



Ltac ops_case :=
  repeat match goal with
  | |- context [String.eqb ?a ?b] => destruct (String.eqb_spec a b) as [->|?]
  | |- context [?b =? 0] => destruct (Z.eqb_spec b 0)
  end;
  first [ solve [split; [intros _; simpl; auto 20 | intros _; eexists; reflexivity]]
        | solve [split; [intros [? Hx]; discriminate Hx | simpl; intros Hin; exfalso; intuition congruence]] ].

(** Supported operators per operand kind: strings only ==, != and +;
    bools only ==, !=, || and &&; ints ==, !=, <, <=, >, >=, +, -, *
    and, for a non-zero divisor, / and %. Any other operator is an
    error. *)
Theorem infix_operator_table op l r line col :
  (forall sl sr, string_kind l = Some sl -> string_kind r = Some sr ->
     (exists v, evalInfixValues op l r line col = ROk v) <-> In op ["=="; "!="; "+"]%string) /\
  (forall a b, l = VBool a -> r = VBool b ->
     (exists v, evalInfixValues op l r line col = ROk v) <-> In op ["=="; "!="; "||"; "&&"]%string) /\
  (forall a b, l = VInt a -> r = VInt b ->
     (exists v, evalInfixValues op l r line col = ROk v) <->
     In op ["=="; "!="; "<"; "<="; ">"; ">="; "+"; "-"; "*"]%string \/
     (In op ["/"; "%"]%string /\ b <> 0)).
Proof.
  split; [|split].
  - intros sl sr Hl Hr. unfold evalInfixValues. rewrite Hl, Hr.
    unfold evalStringInfixExpression.
    destruct (String.eqb_spec op "=="%string) as [->|?]; [ops_case|].
    destruct (String.eqb_spec op "!="%string) as [->|?]; [ops_case|].
    destruct (String.eqb_spec op "+"%string) as [->|?].
    + split; [intros _; simpl; auto|]. intros _.
      destruct (String.eqb sl ""), (String.eqb sr ""); eexists; reflexivity.
    + ops_case.
  - intros a b -> ->. unfold evalInfixValues. simpl. unfold evalBoolInfixExpression. ops_case.
  - intros a b -> ->. unfold evalInfixValues. simpl. unfold evalIntInfixExpression.
    ops_case.
Qed.

Lemma wrap64_small' z : -2^63 <= z < 2^63 -> wrap64 z = z.
Proof. intros H. unfold wrap64. rewrite Z.mod_small by lia. lia. Qed.

Lemma wrap64_mul_add x b c : wrap64 (wrap64 x * b + c) = wrap64 (x * b + c).
Proof.
  unfold wrap64. f_equal.
  rewrite (Z.mod_eq (x + 2^63) (2^64)) by lia.
  replace ((x + 2 ^ 63 - 2 ^ 64 * ((x + 2 ^ 63) / 2 ^ 64) - 2 ^ 63) * b + c + 2 ^ 63)
    with ((x * b + c + 2^63) + (- ((x + 2 ^ 63) / 2 ^ 64 * b)) * 2^64) by ring.
  apply Z_mod_plus_full.
Qed.

Lemma quot_in_range a b :
  -2^63 <= a < 2^63 -> b <> 0 -> ~ (a = -2^63 /\ b = -1) -> -2^63 <= Z.quot a b < 2^63.
Proof.
  intros Ha Hb Hn.
  assert (Hq : Z.abs (Z.quot a b) = Z.quot (Z.abs a) (Z.abs b)) by (symmetry; apply Z.quot_abs; exact Hb).
  rewrite (Z.quot_div_nonneg (Z.abs a) (Z.abs b)) in Hq by lia.
  assert (H1 : Z.abs a / Z.abs b <= Z.abs a) by (apply Z.div_le_upper_bound; nia).
  destruct (Z.eq_dec a (-2^63)) as [->|Ha'].
  - destruct (Z.eq_dec b 1) as [->|Hb1]; [rewrite Z.quot_1_r; lia|].
    assert (Z.abs (-2^63) / Z.abs b <= 2^62) by (apply Z.div_le_upper_bound; lia). lia.
  - lia.
Qed.

(** For 64-bit a and non-zero b, a / b truncates toward zero and a %
    b has the sign of a and |a % b| < |b|, with (a / b) * b + a % b
    = a modulo 2^64; MinInt64 / -1 wraps to MinInt64. *)
Theorem int_div_mod a b line col :
  -2^63 <= a < 2^63 -> -2^63 <= b < 2^63 -> b <> 0 ->
  exists q m,
    evalIntInfixExpression a b "/" line col = ROk (VInt q) /\
    evalIntInfixExpression a b "%" line col = ROk (VInt m) /\
    q = (if (a =? -2^63) && (b =? -1) then -2^63 else Z.quot a b) /\
    m = Z.rem a b /\
    wrap64 (q * b + m) = a /\
    Z.abs m < Z.abs b /\ (0 <= a -> 0 <= m) /\ (a <= 0 -> m <= 0).
Proof.
  intros Ha Hbr Hb.
  exists (wrap64 (Z.quot a b)), (wrap64 (Z.rem a b)).
  assert (Hbz : (b =? 0) = false) by (apply Z.eqb_neq; exact Hb).
  unfold evalIntInfixExpression; simpl. rewrite Hbz.
  assert (Hr : Z.abs (Z.rem a b) < Z.abs b) by (apply Z.rem_bound_abs; exact Hb).
  assert (Hm : wrap64 (Z.rem a b) = Z.rem a b) by (apply wrap64_small'; lia).
  rewrite Hm.
  split; [reflexivity|]. split; [reflexivity|]. split; [|split; [reflexivity|split]].
  - destruct (Z.eqb_spec a (-2^63)) as [->|Ha'], (Z.eqb_spec b (-1)) as [->|Hb']; simpl;
      try reflexivity; apply wrap64_small'; apply quot_in_range; lia.
  - rewrite wrap64_mul_add.
    replace (Z.quot a b * b + Z.rem a b) with a; [apply wrap64_small'; lia|].
    rewrite (Z.quot_rem a b Hb) at 1. ring.
  - split; [exact Hr|]. split.
    + intros H. apply Z.rem_nonneg; lia.
    + intros H. apply Z.rem_nonpos; lia.
Qed.

(** Negating a 64-bit int twice returns it; -MinInt64 is MinInt64. *)
Theorem minus_prefix_twice r line col :
  -2^63 <= r < 2^63 ->
  exists r', evalPrefix "-" (VInt r) line col = ROk (VInt r') /\
             evalPrefix "-" (VInt r') line col = ROk (VInt r) /\
             r' = (if r =? -2^63 then r else - r).
Proof.
  intros H. exists (wrap64 (- r)). unfold evalPrefix, evalMinusPrefix. simpl.
  destruct (Z.eqb_spec r (-2^63)) as [->|Hn].
  - split; [reflexivity|]. split; reflexivity.
  - rewrite (wrap64_small' (- r)) by lia. rewrite (wrap64_small' (- - r)) by lia.
    rewrite Z.opp_involutive. auto.
Qed.

End InfixValueFacts.

Lemma string_plus_is_plain_witness :
  Eval.string_kind (VSafe "a") = Some "a"%string /\ Eval.string_kind (VSafe "b") = Some "b"%string /\
  Eval.evalInfixValues "+" (VSafe "a") (VSafe "b") 1 3 = ROk (VString ("a" ++ "b")) /\
  Render.write (VString ("a" ++ "b")) =
    if String.eqb ("a" ++ "b") "" then ""%string else Render.unsafe.
Proof.
  split; [reflexivity|]. split; [reflexivity|].
  exact (InfixValueFacts.string_plus_is_plain (VSafe "a") (VSafe "b") "a" "b" 1 3 eq_refl eq_refl).
Defined.

Lemma infix_operator_table_witness :
  (exists v, Eval.evalInfixValues "<" (VString "a") (VSafe "b") 1 3 = ROk v) <->
  In "<"%string ["=="; "!="; "+"]%string.
Proof.
  exact (proj1 (InfixValueFacts.infix_operator_table "<" (VString "a") (VSafe "b") 1 3)
           "a"%string "b"%string eq_refl eq_refl).
Defined.

Lemma int_div_mod_witness :
  exists q m,
    Eval.evalIntInfixExpression (-2^63) (-1) "/" 1 3 = ROk (VInt q) /\
    Eval.evalIntInfixExpression (-2^63) (-1) "%" 1 3 = ROk (VInt m) /\
    q = (if (-2^63 =? -2^63) && (-1 =? -1) then -2^63 else Z.quot (-2^63) (-1)) /\
    m = Z.rem (-2^63) (-1) /\
    Eval.wrap64 (q * -1 + m) = -2^63 /\
    Z.abs m < Z.abs (-1) /\ (0 <= -2^63 -> 0 <= m) /\ (-2^63 <= 0 -> m <= 0).
Proof.
  exact (InfixValueFacts.int_div_mod (-2^63) (-1) 1 3 ltac:(lia) ltac:(lia) ltac:(lia)).
Defined.

Lemma minus_prefix_twice_witness :
  exists r', Eval.evalPrefix "-" (VInt (-2^63)) 1 1 = ROk (VInt r') /\
             Eval.evalPrefix "-" (VInt r') 1 1 = ROk (VInt (-2^63)) /\
             r' = (if -2^63 =? -2^63 then -2^63 else - -2^63).
Proof. exact (InfixValueFacts.minus_prefix_twice (-2^63) 1 1 ltac:(lia)). Defined.


Module EvalControlFacts.
Import Ast Eval.

(** A call passing more arguments than the function takes fails with
    'too many arguments' at the call's position, after evaluating
    only the callee: no argument is evaluated and no function is
    called. *)
Theorem call_too_many_args cfg line col callee params st st1 id :
  evalExpression cfg callee st = (st1, ROk (VFunc id)) ->
  (host_arity cfg id < length params)%nat ->
  evalExpression cfg (CallExpression line col callee params) st
  = (st1, RErr (EvalError line col "too many arguments for function call")).
Proof.
  intros Hc Ha. simpl. unfold bind at 1. rewrite Hc.
  apply Nat.ltb_lt in Ha. rewrite Ha. reflexivity.
Qed.

(** A call whose callee does not evaluate to a function fails at the
    callee's position without evaluating any argument. *)
Theorem call_not_function cfg line col callee params st st1 v :
  evalExpression cfg callee st = (st1, ROk v) ->
  (forall id, v <> VFunc id) ->
  evalExpression cfg (CallExpression line col callee params) st
  = (st1, RErr (EvalError (expr_line callee) (expr_col callee)
                  "callee expression in call expression is not a function")).
Proof.
  intros Hc Hv. simpl. unfold bind at 1. rewrite Hc.
  destruct v; try reflexivity. exfalso. exact (Hv id eq_refl).
Qed.

(** A statement list starting with break sets the break flag and,
    outside any loop, fails with 'break outside of loop' at the
    break's position; inside a loop it stops, leaving one nil output
    per statement. *)
Theorem break_first_statement cfg l c rest st :
  evalStatementsCaptureAll (evalStatement cfg) (BreakStatement l c :: rest) st
  = (set_break st true,
     if loopLevel st <=? 0 then RErr (EvalError l c "break outside of loop")
     else ROk (repeat VNil (S (length rest)))).
Proof.
  simpl. unfold bind, modify, get, ret. simpl.
  destruct (loopLevel st <=? 0); reflexivity.
Qed.

(** The same holds for continue: outside any loop it fails with
    'continue outside of loop' at its position; inside a loop it
    stops, leaving one nil output per statement. *)
Theorem continue_first_statement cfg l c rest st :
  breakRequested st = false ->
  evalStatementsCaptureAll (evalStatement cfg) (ContinueStatement l c :: rest) st
  = (set_continue st true,
     if loopLevel st <=? 0 then RErr (EvalError l c "continue outside of loop")
     else ROk (repeat VNil (S (length rest)))).
Proof.
  intros Hb. simpl. unfold bind, modify, get, ret. simpl. rewrite Hb.
  destruct (loopLevel st <=? 0); reflexivity.
Qed.

(** A let in a block updates the nearest enclosing binding of the
    name if there is one; otherwise it binds the name in the block's
    own scope, which is dropped when the block ends, so the outer
    scopes are unchanged. *)
Theorem let_in_block cfg bl bc l c il ic x e v st :
  (forall st', evalExpression cfg e st' = (st', ROk v)) ->
  breakRequested st = false -> continueRequested st = false ->
  evalBlockCaptureAll cfg (Block bl bc [LetStatement l c (mk_ident il ic x) e]) st
  = (set_scope st (match Scope.set_in_parents (scope st) x v with
                   | Some s' => s'
                   | None => scope st
                   end),
     ROk [VNil]).
Proof.
  intros He Hb Hc. destruct st as [S0 ll br co cs rg]; simpl in *; subst.
  unfold withChildScope. simpl. unfold bind. rewrite He. simpl.
  unfold scopeSet, modify, get, ret, set_scope. simpl.
  destruct (Scope.set_in_parents S0 x v); reflexivity.
Qed.

(** A for expression whose identifier is already bound fails at the
    identifier without evaluating the range. If the range value is
    not a ranger, it fails at the range expression's position, and
    the body is never run. *)
Theorem for_checks cfg line col i status range b st st1 v :
  (Scope.HasValue (scope st) (id_name i) = true ->
   evalExpression cfg (ForExpression line col i status range b) st
   = (st, RErr (EvalError (id_line i) (id_col i)
                  ("identifier in for statement already in use: " ++ id_name i)))) /\
  (Scope.HasValue (scope st) (id_name i) = false ->
   (forall si, status = Some si -> Scope.HasValue (scope st) (id_name si) = false) ->
   evalExpression cfg range st = (st1, ROk v) ->
   (forall xs, v <> VRanger xs) ->
   evalExpression cfg (ForExpression line col i status range b) st
   = (st1, RErr (EvalError (expr_line range) (expr_col range)
                   "range expression in for statement did not produce a ranger.Ranger"))).
Proof.
  split.
  - intros H. cbn -[evalBlockCaptureAll Scope.HasValue]. unfold bind, get.
    rewrite H. reflexivity.
  - intros H Hs Hr Hv. cbn -[evalBlockCaptureAll Scope.HasValue]. unfold bind at 1, get.
    rewrite H.
    replace (match status with Some si => Scope.HasValue (scope st) (id_name si) | None => false end)
      with false by (destruct status as [si|]; [symmetry; apply Hs; reflexivity | reflexivity]).
    unfold bind. rewrite Hr. destruct v; try reflexivity. exfalso. exact (Hv xs eq_refl).
Qed.

(** A for loop whose body is `x; break; ...` over a non-empty ranger
    runs the body once. Its value is the first element followed by
    one nil per remaining body statement, and the evaluator state is
    as before. *)
Theorem for_break_runs_once cfg line col x r v rest il ic rl rc bl bc sl sc jl jc kl kc ss st :
  Scope.HasValue (scope st) x = false ->
  Scope.Value (scope st) r = Some (VRanger (v :: rest)) ->
  breakRequested st = false -> continueRequested st = false -> 0 <= loopLevel st ->
  evalExpression cfg
    (ForExpression line col (mk_ident il ic x) None (Ident (mk_ident rl rc r))
       (Block bl bc (ExpressionStatement sl sc (Ident (mk_ident jl jc x)) ::
                     BreakStatement kl kc :: ss))) st
  = (st, ROk (VSeq (v :: repeat VNil (S (length ss))))).
Proof.
  destruct st as [S0 ll br co cs rg]; simpl. intros Hun Hr -> -> Hll.
  cbn -[evalBlockCaptureAll Scope.HasValue Scope.Value].
  unfold bind, get. cbn -[evalBlockCaptureAll Scope.HasValue Scope.Value].
  rewrite Hun. cbn -[evalBlockCaptureAll Scope.HasValue Scope.Value]. rewrite Hr.
  cbn -[Scope.Value Scope.set_in_parents].
  unfold withLoopScope, withChildScope, scopeSet, modify, bind, get, ret, set_scope, set_loopLevel, set_break, set_continue. cbn -[Scope.Value Scope.set_in_parents].
  rewrite (ScopeFacts.set_in_parents_unbound S0 x v Hun). unfold Scope.put. cbn -[Scope.Value].
  rewrite (ForFacts.Value_under_child_frame ∅ S0 x v). simpl.
  replace (ll + 1 <=? 0) with false by (symmetry; apply Z.leb_gt; lia). simpl.
  replace (ll + 1 - 1) with ll by lia. reflexivity.
Qed.

Lemma evalList_pure cfg (ks : list string) (f : string -> expr) vals st :
  (forall k, In k ks -> forall st', evalExpression cfg (f k) st' = (st', ROk (vals k))) ->
  evalList (map (fun k => evalExpression cfg (f k)) ks) st = (st, ROk (map vals ks)).
Proof.
  induction ks as [|k ks IH]; intros H; [reflexivity|].
  simpl. unfold bind. rewrite (H k (or_introl eq_refl)).
  rewrite IH by (intros k' Hk'; exact (H k' (or_intror Hk'))). reflexivity.
Qed.

Lemma assoc_lookup_combine_map (ks : list string) (vals : string -> value) k :
  Eval.assoc_lookup k (combine ks (map vals ks)) =
    if existsb (String.eqb k) ks then Some (vals k) else None.
Proof.
  unfold Eval.assoc_lookup. induction ks as [|k' ks IH]; [reflexivity|].
  simpl. rewrite (String.eqb_sym k k').
  destruct (String.eqb_spec k' k) as [->|]; [reflexivity | exact IH].
Qed.

Lemma existsb_perm (ks ks' : list string) k :
  Permutation ks ks' -> existsb (String.eqb k) ks = existsb (String.eqb k) ks'.
Proof.
  intros P. destruct (existsb (String.eqb k) ks) eqn:E1, (existsb (String.eqb k) ks') eqn:E2;
    try reflexivity; exfalso.
  - apply existsb_exists in E1 as [y [Hy Hk]]. apply String.eqb_eq in Hk. subst y.
    apply (Permutation_in _ P) in Hy.
    assert (existsb (String.eqb k) ks' = true) by (apply existsb_exists; exists k; split; [exact Hy | apply String.eqb_refl]).
    congruence.
  - apply existsb_exists in E2 as [y [Hy Hk]]. apply String.eqb_eq in Hk. subst y.
    apply (Permutation_in _ (Permutation_sym P)) in Hy.
    assert (existsb (String.eqb k) ks = true) by (apply existsb_exists; exists k; split; [exact Hy | apply String.eqb_refl]).
    congruence.
Qed.

(** A field lookup on a hash literal with distinct keys and side-
    effect-free values returns the value stored under the key. A
    missing key fails with 'key not found in map' at the field
    expression's position, whatever order the map is iterated in. *)
Theorem field_of_hash_literal cfg line col hl hc entries vals sl sc k st :
  NoDup (map fst entries) ->
  Permutation (map_order cfg (ranges st) (map fst entries)) (map fst entries) ->
  (forall k e, In (k, e) entries -> forall st', evalExpression cfg e st' = (st', ROk (vals k))) ->
  evalExpression cfg (FieldExpression line col (HashExpression hl hc entries) (StringLiteral sl sc k)) st
  = (set_ranges st (S (ranges st)),
     if existsb (String.eqb k) (map fst entries) then ROk (vals k)
     else RErr (EvalError line col ("key not found in map: " ++ k))).
Proof.
  intros Hnd Hperm Hpure.
  cbn -[evalHashEntries map_order].
  unfold evalHashExpression, bind, get, modify.
  rewrite map_map. simpl.
  change (map (fun x => fst x) entries) with (map fst entries).
  rewrite (HashFacts.evalHashEntries_sequential cfg hl hc entries _ [] _).
  - rewrite (evalList_pure cfg _ (Run.entry_expr entries) vals).
    + simpl. unfold lift. rewrite assoc_lookup_combine_map, (existsb_perm _ _ k Hperm).
      destruct (existsb (String.eqb k) (map fst entries)); reflexivity.
    + intros k' Hk' st'. unfold Run.entry_expr.
      destruct (Eval.assoc_lookup k' entries) as [e|] eqn:E.
      * apply (Hpure k' e). unfold Eval.assoc_lookup in E.
        destruct (List.find (fun kv => String.eqb (fst kv) k') entries) as [[a b]|] eqn:F; [|discriminate].
        injection E as <-. apply List.find_some in F as [Hin Heq]. apply String.eqb_eq in Heq.
        simpl in Heq. subst a. exact Hin.
      * exfalso. apply (Permutation_in _ Hperm) in Hk'.
        destruct (HashFacts.assoc_lookup_in k' entries Hk') as [a Ha]. congruence.
  - apply NoDup_ListNoDup. apply (Permutation_NoDup (Permutation_sym Hperm)).
    apply NoDup_ListNoDup. exact Hnd.
  - intros k0 _. reflexivity.
  - intros k0 Hk. exact (Permutation_in _ Hperm Hk).
Qed.

End EvalControlFacts.

Lemma call_too_many_args_witness :
  let cfg := Run.host_cfg Eval.InfixAndOr (fun _ ks => ks) (fun _ => Eval.HostVals []) in
  let st := Eval.initial (Run.top [("f"%string, VFunc 0)]) in
  Eval.evalExpression cfg (Ast.Ident (Ast.mk_ident 1 1 "f")) st = (st, ROk (VFunc 0)) /\
  (Eval.host_arity cfg 0 < length [Ast.IntLiteral 1 3 1; Ast.IntLiteral 1 6 2])%nat /\
  Eval.evalExpression cfg (Ast.CallExpression 1 2 (Ast.Ident (Ast.mk_ident 1 1 "f"))
                             [Ast.IntLiteral 1 3 1; Ast.IntLiteral 1 6 2]) st
  = (st, RErr (EvalError 1 2 "too many arguments for function call")).
Proof.
  intros cfg st.
  assert (H1 : Eval.evalExpression cfg (Ast.Ident (Ast.mk_ident 1 1 "f")) st = (st, ROk (VFunc 0)))
    by (vm_compute; reflexivity).
  assert (H2 : (Eval.host_arity cfg 0 < length [Ast.IntLiteral 1 3 1; Ast.IntLiteral 1 6 2])%nat)
    by (simpl; lia).
  split; [exact H1|]. split; [exact H2|].
  exact (EvalControlFacts.call_too_many_args cfg 1 2 _ _ st st 0 H1 H2).
Defined.

Lemma call_not_function_witness :
  let cfg := Run.host_cfg Eval.InfixAndOr (fun _ ks => ks) (fun _ => Eval.HostVals []) in
  let st := Eval.initial [] in
  Eval.evalExpression cfg (Ast.IntLiteral 1 1 5) st = (st, ROk (VInt 5)) /\
  Eval.evalExpression cfg (Ast.CallExpression 1 2 (Ast.IntLiteral 1 1 5) [Ast.NilLiteral 1 3]) st
  = (st, RErr (EvalError 1 1 "callee expression in call expression is not a function")).
Proof.
  intros cfg st.
  assert (H1 : Eval.evalExpression cfg (Ast.IntLiteral 1 1 5) st = (st, ROk (VInt 5))) by reflexivity.
  split; [exact H1|].
  exact (EvalControlFacts.call_not_function cfg 1 2 _ [Ast.NilLiteral 1 3] st st (VInt 5) H1
           ltac:(discriminate)).
Defined.

Lemma continue_first_statement_witness :
  let cfg := Run.host_cfg Eval.InfixAndOr (fun _ ks => ks) (fun _ => Eval.HostVals []) in
  Eval.breakRequested (Eval.initial []) = false /\
  Eval.evalStatementsCaptureAll (Eval.evalStatement cfg) [Ast.ContinueStatement 2 4] (Eval.initial [])
  = (Eval.set_continue (Eval.initial []) true,
     if Eval.loopLevel (Eval.initial []) <=? 0
     then RErr (EvalError 2 4 "continue outside of loop")
     else ROk (repeat VNil (S (length (@nil Ast.stmt))))).
Proof.
  intros cfg. split; [reflexivity|].
  exact (EvalControlFacts.continue_first_statement cfg 2 4 [] (Eval.initial []) eq_refl).
Defined.

Lemma let_in_block_witness :
  let cfg := Run.host_cfg Eval.InfixAndOr (fun _ ks => ks) (fun _ => Eval.HostVals []) in
  let st := Eval.initial (Run.top [("x"%string, VInt 1)]) in
  (forall st', Eval.evalExpression cfg (Ast.IntLiteral 1 9 2) st' = (st', ROk (VInt 2))) /\
  Eval.evalBlockCaptureAll cfg
    (Ast.Block 1 1 [Ast.LetStatement 1 1 (Ast.mk_ident 1 5 "x") (Ast.IntLiteral 1 9 2)]) st
  = (Eval.set_scope st (match Scope.set_in_parents (Eval.scope st) "x" (VInt 2) with
                        | Some s' => s' | None => Eval.scope st end),
     ROk [VNil]).
Proof.
  intros cfg st.
  assert (H : forall st', Eval.evalExpression cfg (Ast.IntLiteral 1 9 2) st' = (st', ROk (VInt 2)))
    by reflexivity.
  split; [exact H|].
  exact (EvalControlFacts.let_in_block cfg 1 1 1 1 1 5 "x" _ (VInt 2) st H eq_refl eq_refl).
Defined.

Lemma for_checks_witness :
  let cfg := Run.host_cfg Eval.InfixAndOr (fun _ ks => ks) (fun _ => Eval.HostVals []) in
  let st := Eval.initial [] in
  Scope.HasValue (Eval.scope st) "i" = false /\
  Eval.evalExpression cfg (Ast.IntLiteral 1 10 3) st = (st, ROk (VInt 3)) /\
  Eval.evalExpression cfg
    (Ast.ForExpression 1 1 (Ast.mk_ident 1 5 "i") None (Ast.IntLiteral 1 10 3) (Ast.Block 1 12 [])) st
  = (st, RErr (EvalError 1 10 "range expression in for statement did not produce a ranger.Ranger")).
Proof.
  intros cfg st.
  assert (H1 : Scope.HasValue (Eval.scope st) "i" = false) by reflexivity.
  assert (H2 : Eval.evalExpression cfg (Ast.IntLiteral 1 10 3) st = (st, ROk (VInt 3))) by reflexivity.
  split; [exact H1|]. split; [exact H2|].
  exact (proj2 (EvalControlFacts.for_checks cfg 1 1 (Ast.mk_ident 1 5 "i") None (Ast.IntLiteral 1 10 3)
                  (Ast.Block 1 12 []) st st (VInt 3))
           H1 (fun si H => ltac:(discriminate H)) H2 (fun xs => ltac:(discriminate))).
Defined.

Lemma for_break_runs_once_witness :
  let cfg := Run.host_cfg Eval.InfixAndOr (fun _ ks => ks) (fun _ => Eval.HostVals []) in
  let st := Eval.initial (Run.top [("r"%string, VRanger [VInt 1; VInt 2; VInt 3])]) in
  Scope.HasValue (Eval.scope st) "x" = false /\
  Scope.Value (Eval.scope st) "r" = Some (VRanger [VInt 1; VInt 2; VInt 3]) /\
  Eval.evalExpression cfg
    (Ast.ForExpression 1 1 (Ast.mk_ident 1 5 "x") None (Ast.Ident (Ast.mk_ident 1 10 "r"))
       (Ast.Block 1 12 [Ast.ExpressionStatement 1 12 (Ast.Ident (Ast.mk_ident 1 12 "x"));
                        Ast.BreakStatement 1 14])) st
  = (st, ROk (VSeq [VInt 1; VNil])).
Proof.
  intros cfg st.
  assert (H1 : Scope.HasValue (Eval.scope st) "x" = false) by (vm_compute; reflexivity).
  assert (H2 : Scope.Value (Eval.scope st) "r" = Some (VRanger [VInt 1; VInt 2; VInt 3]))
    by (vm_compute; reflexivity).
  split; [exact H1|]. split; [exact H2|].
  exact (EvalControlFacts.for_break_runs_once cfg 1 1 "x" "r" (VInt 1) [VInt 2; VInt 3]
           1 5 1 10 1 12 1 12 1 12 1 14 [] st H1 H2 eq_refl eq_refl ltac:(simpl; lia)).
Defined.

Lemma field_of_hash_literal_witness :
  let cfg := Run.host_cfg Eval.InfixAndOr (fun _ ks => rev ks) (fun _ => Eval.HostVals []) in
  let entries := [("a"%string, Ast.IntLiteral 1 7 1); ("b"%string, Ast.IntLiteral 1 15 2)] in
  let vals := fun k => if String.eqb k "a" then VInt 1 else VInt 2 in
  let st := Eval.initial [] in
  NoDup (map fst entries) /\
  Permutation (Eval.map_order cfg (Eval.ranges st) (map fst entries)) (map fst entries) /\
  (forall k e, In (k, e) entries -> forall st', Eval.evalExpression cfg e st' = (st', ROk (vals k))) /\
  Eval.evalExpression cfg
    (Ast.FieldExpression 1 20 (Ast.HashExpression 1 1 entries) (Ast.StringLiteral 1 21 "c")) st
  = (Eval.set_ranges st 1, RErr (EvalError 1 20 ("key not found in map: " ++ "c"))).
Proof.
  intros cfg entries vals st.
  assert (H1 : NoDup (map fst entries)) by (apply (bool_decide_unpack _); vm_compute; reflexivity).
  assert (H2 : Permutation (Eval.map_order cfg (Eval.ranges st) (map fst entries)) (map fst entries))
    by (simpl; apply perm_swap).
  assert (H3 : forall k e, In (k, e) entries -> forall st',
             Eval.evalExpression cfg e st' = (st', ROk (vals k))).
  { intros k e [H|[H|[]]] st'; injection H as <- <-; reflexivity. }
  split; [exact H1|]. split; [exact H2|]. split; [exact H3|].
  exact (EvalControlFacts.field_of_hash_literal cfg 1 20 1 1 entries vals 1 21 "c" st H1 H2 H3).
Defined.

Module LiteralFacts.
Import Ast Eval Lexer.

(** What the lexer has still to deliver: the current rune, the next
    one and the unread input, as far as they are not past the end. *)
Definition remaining (l : lexer) : list ascii :=
  if currEOF l then []
  else currChar l :: (if nextEOF l then [] else nextChar l :: input l).

(** The runes contain no [<%] pair. *)
Fixpoint noCodeStart (cs : list ascii) : bool :=
  match cs with
  | c :: ((d :: _) as t) => negb (Ascii.eqb c "<" && Ascii.eqb d "%") && noCodeStart t
  | _ => true
  end.

Lemma remaining_readNextChar l : remaining (readNextChar l) = tl (remaining l).
Proof.
  destruct l as [inp o ln cl c n ce ne]; unfold readNextChar, remaining; simpl.
  destruct ce; [reflexivity|]. destruct ne; simpl; [reflexivity|].
  destruct (Ascii.eqb c nl), inp; reflexivity.
Qed.

Lemma noCodeStart_tl cs : noCodeStart cs = true -> noCodeStart (tl cs) = true.
Proof.
  destruct cs as [|c [|d t]]; simpl; [auto|auto|]. intros H. apply andb_true_iff in H. tauto.
Qed.

Lemma string_app_cons_assoc (b : string) c r :
  (snoc b c ++ r)%string = (b ++ String c r)%string.
Proof.
  unfold snoc. induction b as [|a b IH]; [reflexivity|].
  change ((String a (b ++ String c "") ++ r)%string = String a (b ++ String c r)%string).
  change (String a ((b ++ String c "") ++ r)%string = String a (b ++ String c r)%string).
  f_equal. exact IH.
Qed.

Lemma string_app_empty (b : string) : (b ++ "")%string = b.
Proof.
  induction b as [|a b IH]; [reflexivity|].
  change (String a (b ++ "")%string = String a b). f_equal. exact IH.
Qed.

Lemma accumulate_literal fuel buf l :
  noCodeStart (remaining l) = true -> (length (remaining l) < fuel)%nat ->
  exists l', accumulate fuel (fun l => negb (isAtCodeStart l)) buf l
             = (true, (buf ++ string_of_list_ascii (remaining l))%string, l')
             /\ currEOF l' = true.
Proof.
  revert buf l. induction fuel as [|f IH]; intros buf l Hn Hlen; [lia|].
  simpl. destruct (currEOF l) eqn:He.
  - exists l. unfold remaining. rewrite He. simpl. rewrite string_app_empty. auto.
  - assert (Hc : isAtCodeStart l = false).
    { unfold remaining in Hn. rewrite He in Hn. unfold isAtCodeStart, nextCharIs.
      destruct (nextEOF l); [rewrite andb_false_r; reflexivity|].
      simpl in Hn. apply andb_true_iff in Hn as [Hn _]. apply negb_true_iff in Hn.
      exact Hn. }
    rewrite Hc. simpl.
    assert (H1 : noCodeStart (remaining (readNextChar l)) = true)
      by (rewrite remaining_readNextChar; apply noCodeStart_tl; exact Hn).
    assert (H2 : (length (remaining (readNextChar l)) < f)%nat).
    { rewrite remaining_readNextChar. unfold remaining in *. rewrite He in *.
      simpl in *. lia. }
    destruct (IH (snoc buf (currChar l)) (readNextChar l) H1 H2) as [l' [Ha Hl']].
    exists l'. split; [|exact Hl']. rewrite Ha, remaining_readNextChar.
    unfold remaining; rewrite He. simpl. rewrite string_app_cons_assoc. reflexivity.
Qed.

Lemma lex_literal_only_aux (src : string) :
  src <> ""%string -> noCodeStart (list_ascii_of_string src) = true ->
  exists ln cl, lex src false = [mk_token LITERAL src 1 1; mk_token EOF "" ln cl].
Proof.
  intros Hne Hn. unfold lex, Tokens, New. simpl optStartInCode. cbv iota.
  set (r := list_ascii_of_string src).
  set (l0 := initialize (mk_lexer r false 0 0 nul nul false false)).
  assert (Hr : remaining l0 = r).
  { unfold l0, initialize, remaining. simpl.
    destruct r as [|c [|d t]]; reflexivity. }
  assert (He : currEOF l0 = false).
  { destruct (currEOF l0) eqn:E; [|reflexivity]. exfalso. apply Hne.
    unfold remaining in Hr. rewrite E in Hr.
    rewrite <- (string_of_list_ascii_of_string src). fold r. rewrite <- Hr. reflexivity. }
  assert (Hpos : line l0 = 1 /\ col l0 = 1) by (split; reflexivity).
  clearbody l0.
  destruct (accumulate_literal (loop_fuel l0) "" l0) as [l' [Ha Hl']].
  { rewrite Hr. exact Hn. }
  { unfold remaining, loop_fuel. rewrite He. destruct (nextEOF l0); simpl; lia. }
  rewrite Hr in Ha. unfold r in Ha. rewrite string_of_list_ascii_of_string in Ha.
  exists (line l'), (col l').
  change (run (8 * length r + 16)%nat l0 parseLiteral =
          [mk_token LITERAL src 1 1; mk_token EOF "" (line l') (col l')]).
  remember (8 * length r + 16)%nat as fuel.
  destruct fuel as [|[|f]]; [lia|lia|].
  cbn [run]. rewrite He. cbn [step]. rewrite Ha. cbn [run]. rewrite Hl'.
  unfold tok. destruct Hpos as [-> ->]. reflexivity.
Qed.

Lemma parse_literal_only_aux src ln cl :
  Parser.Parse [mk_token LITERAL src 1 1; mk_token EOF "" ln cl]
  = inr (Program 1 1 [ExpressionStatement 1 1 (Literal 1 1 src)]).
Proof. reflexivity. Qed.

(** A non-empty template text without [<%] renders to what the
    literal stringer makes of the whole text, written out; an error of
    the stringer is the error of the rendering. *)
Theorem render_literal_only cfg src s :
  src <> ""%string -> noCodeStart (list_ascii_of_string src) = true ->
  Template.Render cfg src s
  = match literalStringer cfg src with
    | ROk v => inr (Render.write v)
    | RErr e => inl (Template.REvalError e)
    end.
Proof.
  intros Hne Hn. destruct (lex_literal_only_aux src Hne Hn) as [ln [cl Hlex]].
  unfold Template.Render, Template.render. rewrite Hlex, parse_literal_only_aux.
  unfold Eval.Eval, evalProgram, Template.capture.
  cbv [evalStatementsCaptureAll evalStatement evalExpression evalBlockCaptureAll
       withChildScope bind get ret lift fail stmt_pos prog_stmts rev app snd].
  destruct (literalStringer cfg src); reflexivity.
Qed.

(** A non-empty template text without [<%], lexed in literal mode, is
    sent as one LITERAL token at line 1, column 1 holding the whole
    text, then EOF; the parser makes it a program whose only statement
    is that literal. *)
Theorem lex_parse_literal_only (src : string) :
  src <> ""%string -> noCodeStart (list_ascii_of_string src) = true ->
  (exists ln cl, lex src false = [mk_token LITERAL src 1 1; mk_token EOF "" ln cl]) /\
  Parser.Parse (lex src false)
  = inr (Program 1 1 [ExpressionStatement 1 1 (Literal 1 1 src)]).
Proof.
  intros Hne Hn. destruct (lex_literal_only_aux src Hne Hn) as [ln [cl Hlex]].
  split; [eauto|]. rewrite Hlex. apply parse_literal_only_aux.
Qed.

End LiteralFacts.

Definition literal_sample : string := "a < b, 5 % 2, <p>".

Lemma lex_parse_literal_only_witness :
  literal_sample <> ""%string /\
  LiteralFacts.noCodeStart (list_ascii_of_string literal_sample) = true /\
  Parser.Parse (Lexer.lex literal_sample false)
  = inr (Ast.Program 1 1 [Ast.ExpressionStatement 1 1 (Ast.Literal 1 1 literal_sample)]).
Proof.
  assert (H1 : literal_sample <> ""%string)
    by (apply (bool_decide_unpack _); vm_compute; reflexivity).
  assert (H2 : LiteralFacts.noCodeStart (list_ascii_of_string literal_sample) = true)
    by (vm_compute; reflexivity).
  split; [exact H1|]. split; [exact H2|].
  exact (proj2 (LiteralFacts.lex_parse_literal_only literal_sample H1 H2)).
Defined.

Lemma render_literal_only_witness :
  literal_sample <> ""%string /\
  LiteralFacts.noCodeStart (list_ascii_of_string literal_sample) = true /\
  Template.Render (Run.host_cfg Eval.InfixAndOr (fun _ ks => ks) (fun _ => Eval.HostVals []))
                  literal_sample [] = inr literal_sample.
Proof.
  assert (H1 : literal_sample <> ""%string)
    by (apply (bool_decide_unpack _); vm_compute; reflexivity).
  assert (H2 : LiteralFacts.noCodeStart (list_ascii_of_string literal_sample) = true)
    by (vm_compute; reflexivity).
  split; [exact H1|]. split; [exact H2|].
  exact (LiteralFacts.render_literal_only _ literal_sample [] H1 H2).
Defined.
